(** * Gisquick QGIS plugin: the layer-tree mirror, the [Node] tree and the
    scale/resolution bookkeeping of [webgisplugin.py]

    The development follows the source file top-down.  Host objects (QGIS
    layers, the layer tree, the project registry, the file system) are
    modelled by plain data carrying exactly the attributes the plugin reads.
    A Python exception is modelled by [None] in the [option] monad; a Python
    [None] return value of a function that can also raise is an inner
    [option]. *)

From Stdlib Require Import Ascii String QArith Qcanon Qround.
From stdpp Require Import gmap strings list fin_maps sorting numbers.

Set Warnings "-register-all".
Local Open Scope string_scope.

(** ** Host object model *)

(** [QgsMapLayer.LayerType]: the plugin names two enumerators only; every
    other enumerator of the host is kept by its code. *)
Inductive LayerType :=
  | VectorLayer
  | RasterLayer
  | OtherLayerType (code : Z).

#[global] Instance LayerType_eq_dec : EqDecision LayerType.
Proof. solve_decision. Defined.

(** A finite [Decimal]: only comparison, equality and hashing of decimals
    happen in this file of the plugin, and all three go by the exact numeric
    value, so a decimal is its canonical rational value. *)
Abbreviation Decimal := Qc.

(** A number handed to the conversion helpers as a scale: the project's
    stored scales are Python [int]s, the scale limits of a layer are host
    doubles (kept by their exact value). *)
Inductive Scale :=
  | IntScale (n : Z)
  | FloatScale (x : Q).

(** The attributes of a [QgsMapLayer] read by the plugin. *)
Record Layer := {
  layer_id : string;                         (* layer.id() *)
  layer_type : LayerType;                    (* layer.type() *)
  providerType : string;                     (* layer.providerType() *)
  hasScaleBasedVisibility : bool;
  maximumScale : Q;
  minimumScale : Q;
  (* layer.dataProvider().property('resolutions'); None is Python's None *)
  provider_resolutions : option (list Q)
}.

(** A node of the host layer tree: either a [QgsLayerTreeLayer] or a group
    with a name and children. *)
Inductive LayerTreeNode :=
  | QgsLayerTreeLayer (l : Layer)
  | QgsLayerTreeGroup (group_name : string) (tree_children : list LayerTreeNode).

(** ** class Node, as an immutable tree

    The trees built by the mirroring functions are made of fresh objects,
    each attached once, so their shape is a finite tree and the [parent]
    attribute of a node is determined by its position.  The mutable object
    model, where aliasing matters, is [Heap] below. *)
Inductive Node :=
  | mkNode (node_name : string) (node_layer : option Layer) (node_children : list Node).

Definition name (n : Node) : string := let 'mkNode s _ _ := n in s.
Definition layer (n : Node) : option Layer := let 'mkNode _ l _ := n in l.
Definition children (n : Node) : list Node := let 'mkNode _ _ cs := n in cs.

(** [Node.find]: a [Node] object is always truthy (the class defines neither
    [__bool__] nor [__len__]), so [if res] holds exactly when the recursive
    call returned a node. *)
Fixpoint find (self : Node) (nm : string) : option Node :=
  match self with
  | mkNode self_name _ cs =>
      if decide (nm = self_name) then Some self
      else
        (fix loop (cs : list Node) : option Node :=
           match cs with
           | [] => None
           | child :: rest =>
               match find child nm with
               | Some res => Some res
               | None => loop rest
               end
           end) cs
  end.

(** The nodes of a tree in pre-order: the node, then its children's
    subtrees from left to right. *)
Fixpoint preorder (n : Node) : list Node :=
  match n with
  | mkNode _ _ cs => n :: concat (map preorder cs)
  end.

(** The leaves of a tree, from left to right. *)
Fixpoint leaf_nodes (n : Node) : list Node :=
  match n with
  | mkNode _ _ [] => [n]
  | mkNode _ _ cs => concat (map leaf_nodes cs)
  end.

(** ** Layer predicates of [WebGisPlugin] *)

Definition is_overlay_layer_for_publish (layer : Layer) : bool :=
  bool_decide (layer_type layer = VectorLayer)
  || (bool_decide (layer_type layer = RasterLayer)
      && negb (bool_decide (providerType layer = "wms"))).

Definition is_base_layer_for_publish (layer : Layer) : bool :=
  bool_decide (layer_type layer = RasterLayer)
  && bool_decide (providerType layer = "wms").

(** ** Mirroring the host layer tree *)

(** [get_project_base_layers]: the nested [overlays_tree] and the call on
    the root group.  The root is an argument: it is what
    [iface.layerTreeView().layerTreeModel().rootGroup()] returns. *)
Module BaseLayers.
Fixpoint overlays_tree (tree_node : LayerTreeNode) : option Node :=
  match tree_node with
  | QgsLayerTreeLayer layer =>
      if is_base_layer_for_publish layer
      then Some (mkNode (layer_id layer) (Some layer) [])
      else None
  | QgsLayerTreeGroup group_name tree_children =>
      let children :=
        (fix loop (cs : list LayerTreeNode) : list Node :=
           match cs with
           | [] => []
           | child_tree_node :: rest =>
               match overlays_tree child_tree_node with
               | Some node => node :: loop rest
               | None => loop rest
               end
           end) tree_children in
      match children with
      | [] => None
      | _ :: _ => Some (mkNode group_name None children)
      end
  end.

Definition get_project_base_layers (root_node : LayerTreeNode) : option Node :=
  overlays_tree root_node.
End BaseLayers.

(** [get_project_layers]: the same text with the overlay predicate. *)
Module OverlayLayers.
Fixpoint overlays_tree (tree_node : LayerTreeNode) : option Node :=
  match tree_node with
  | QgsLayerTreeLayer layer =>
      if is_overlay_layer_for_publish layer
      then Some (mkNode (layer_id layer) (Some layer) [])
      else None
  | QgsLayerTreeGroup group_name tree_children =>
      let children :=
        (fix loop (cs : list LayerTreeNode) : list Node :=
           match cs with
           | [] => []
           | child_tree_node :: rest =>
               match overlays_tree child_tree_node with
               | Some node => node :: loop rest
               | None => loop rest
               end
           end) tree_children in
      match children with
      | [] => None
      | _ :: _ => Some (mkNode group_name None children)
      end
  end.

Definition get_project_layers (root_node : LayerTreeNode) : option Node :=
  overlays_tree root_node.
End OverlayLayers.

(** The one recursive helper the specification speaks of, with the layer
    predicate as its parameter.  This definition follows the
    specification's words; the two modules above follow the source. *)
Fixpoint mirror_tree (p : Layer → bool) (tree_node : LayerTreeNode) : option Node :=
  match tree_node with
  | QgsLayerTreeLayer layer =>
      if p layer then Some (mkNode (layer_id layer) (Some layer) []) else None
  | QgsLayerTreeGroup group_name tree_children =>
      match omap (mirror_tree p) tree_children with
      | [] => None
      | children => Some (mkNode group_name None children)
      end
  end.

(** The layers of a host tree, from left to right. *)
Fixpoint tree_layers (t : LayerTreeNode) : list Layer :=
  match t with
  | QgsLayerTreeLayer l => [l]
  | QgsLayerTreeGroup _ cs => concat (map tree_layers cs)
  end.

(** [mirrors p t n]: [n] is the mirror of the host tree [t] restricted to
    the layers satisfying [p].  A qualifying layer becomes a leaf named by
    the layer id and carrying the layer; a group becomes a node of the same
    name whose children mirror, in order, those children of the group that
    contain a qualifying layer; a group must keep at least one child. *)
Inductive mirrors (p : Layer → bool) : LayerTreeNode → Node → Prop :=
  | mirrors_layer l :
      p l = true →
      mirrors p (QgsLayerTreeLayer l) (mkNode (layer_id l) (Some l) [])
  | mirrors_group g cs ns :
      mirrors_children p cs ns →
      ns ≠ [] →
      mirrors p (QgsLayerTreeGroup g cs) (mkNode g None ns)
with mirrors_children (p : Layer → bool) : list LayerTreeNode → list Node → Prop :=
  | mirrors_nil : mirrors_children p [] []
  | mirrors_keep c cs n ns :
      mirrors p c n →
      mirrors_children p cs ns →
      mirrors_children p (c :: cs) (n :: ns)
  | mirrors_omit c cs ns :
      Forall (λ l, p l = false) (tree_layers c) →
      mirrors_children p cs ns →
      mirrors_children p (c :: cs) ns.

(** ** Python helpers used by [WebGisPlugin] *)

(** [sorted(xs, reverse=True)] for values whose [==] is identity of the
    modelled value (decimals by value, integers, tuples of those): the
    descending arrangement of [xs].  Python's sort is stable, which is not
    observable for such values. *)
Definition sorted_reverse {A} (le : relation A) `{!RelDecision le}
    (xs : list A) : list A :=
  merge_sort (flip le) xs.

(** [s.split(":")]: the fields between the colons, never an empty list. *)
Fixpoint split_colon (s : string) : list string :=
  match s with
  | EmptyString => [EmptyString]
  | String c rest =>
      if Ascii.eqb c ":"%char then EmptyString :: split_colon rest
      else
        match split_colon rest with
        | field :: fields => String c field :: fields
        | [] => [String c EmptyString]
        end
  end.

(** [s.split(":")[-1]] *)
Definition last_field (s : string) : string :=
  List.last (split_colon s) EmptyString.

(** What [webgisplugin.py] imports and calls but does not define:
    the three helpers of [utils.py] and the built-in [int] on strings.
    They are parameters of the development; [None] stands for a raised
    exception. *)
Class Imports := {
  (* utils.scales_to_resolutions(scales, units) *)
  utils_scales_to_resolutions : list Scale → string → option (list Decimal);
  (* utils.resolutions_to_scales(resolutions, units) *)
  utils_resolutions_to_scales : list Decimal → string → option (list Z);
  (* utils.to_decimal_array(values) *)
  to_decimal_array : list Q → option (list Decimal);
  (* int(text) *)
  py_int : string → option Z
}.

(** The state read by the methods of [WebGisPlugin]. *)
Record Plugin := {
  (* self.iface.mapCanvas().mapUnits() *)
  canvas_map_units : Z;
  (* QgsProject.instance().mapLayers().values() *)
  project_map_layers : list Layer;
  (* the project entry "Scales" / "/ScalesList", when the project has it *)
  project_scales_list : option (list string)
}.

(** [self.project.readListEntry("Scales", "/ScalesList")]: the stored list
    and [True], or the empty default and [False]. *)
Definition readListEntry (self : Plugin) : list string * bool :=
  match project_scales_list self with
  | Some entries => (entries, true)
  | None => ([], false)
  end.

(** [map_units]: a dictionary lookup, which raises [KeyError] for a code
    that is not a key. *)
Definition map_units (self : Plugin) : option string :=
  match canvas_map_units self with
  | 0%Z => Some "meters"
  | 1%Z => Some "feet"
  | 2%Z => Some "degrees"
  | 3%Z => Some "unknown"
  | 7%Z => Some "miles"
  | _ => None
  end.

Section WebGisPlugin.
Context `{Imports}.

Definition scales_to_resolutions (self : Plugin) (scales : list Scale)
    : option (list Decimal) :=
  units ← map_units self;
  utils_scales_to_resolutions scales units.

Definition resolutions_to_scales (self : Plugin) (resolutions : list Decimal)
    : option (list Z) :=
  units ← map_units self;
  utils_resolutions_to_scales resolutions units.

Definition filter_visible_resolutions (self : Plugin)
    (resolutions : list Decimal) (layer : Layer) : option (list Decimal) :=
  if hasScaleBasedVisibility layer then
    let max_scale_exclusive := maximumScale layer in
    let min_scale_inclusive := minimumScale layer in
    converted ← scales_to_resolutions self
      [FloatScale max_scale_exclusive; FloatScale min_scale_inclusive];
    match converted with
    | [max_res_exclusive; min_res_inclusive] =>
        Some (filter (λ res, (min_res_inclusive ≤ res)%Qc
                             ∧ (res < max_res_exclusive)%Qc) resolutions)
    | _ => None (* unpacking raises ValueError *)
    end
  else Some resolutions.

(** The result is [None] (raised), [Some None] (returned [None]) or
    [Some (Some rs)]. *)
Definition wmsc_layer_resolutions (self : Plugin) (layer : Layer)
    : option (option (list Decimal)) :=
  match provider_resolutions layer with
  | Some ((_ :: _) as layer_resolutions) =>
      layer_resolutions ← to_decimal_array layer_resolutions;
      layer_resolutions ←
        (if hasScaleBasedVisibility layer
         then filter_visible_resolutions self layer_resolutions layer
         else Some layer_resolutions);
      match layer_resolutions with
      | _ :: _ => Some (Some (sorted_reverse Qcle layer_resolutions))
      | [] => Some (Some [])
      end
  | _ => Some None
  end.

(** The dictionary comprehension of [project_layers_resolutions]: a later
    layer with the same id replaces an earlier one. *)
Definition base_layers (self : Plugin) : gmap string Layer :=
  foldl (λ m layer, <[layer_id layer := layer]> m) ∅
        (filter (λ layer, is_base_layer_for_publish layer = true)
                (project_map_layers self)).

(** The first loop of [project_layers_resolutions], over the values of
    [base_layers]. *)
Fixpoint collect_wmsc_resolutions (self : Plugin) (layers : list Layer)
    (project_tile_resolutions : gset Decimal) : option (gset Decimal) :=
  match layers with
  | [] => Some project_tile_resolutions
  | layer :: rest =>
      layer_resolutions ← wmsc_layer_resolutions self layer;
      match layer_resolutions with
      | Some ((_ :: _) as layer_resolutions) =>
          collect_wmsc_resolutions self rest
            (project_tile_resolutions ∪ list_to_set layer_resolutions)
      | _ => collect_wmsc_resolutions self rest project_tile_resolutions
      end
  end.

(** The set of all resolutions of the WMSC base layers, as it stands
    after the first loop. *)
Definition wmsc_resolutions (self : Plugin) : option (gset Decimal) :=
  collect_wmsc_resolutions self
    ((map_to_list (base_layers self)).*2) ∅.

(** The scales kept from the stored list: parsed, then those already
    among [wmsc_layers_scales] dropped. *)
Definition kept_scales (wmsc_layers_scales : list Z) (entries : list string)
    : option (list Z) :=
  scales ← mapM (λ scale, py_int (last_field scale)) entries;
  Some (filter (λ scale, scale ∉ wmsc_layers_scales) scales).

Definition project_layers_resolutions (self : Plugin) : option (list Decimal) :=
  project_tile_resolutions ← wmsc_resolutions self;
  wmsc_layers_scales ←
    resolutions_to_scales self (elements project_tile_resolutions);
  let '(scales, ok) := readListEntry self in
  project_tile_resolutions ←
    (if ok && negb (bool_decide (scales = [])) then
       scales ← kept_scales wmsc_layers_scales scales;
       converted ← scales_to_resolutions self
                     (IntScale <$> sorted_reverse Z.le scales);
       Some (project_tile_resolutions ∪ list_to_set converted)
     else Some project_tile_resolutions);
  Some (sorted_reverse Qcle (elements project_tile_resolutions)).

End WebGisPlugin.

(** ** class Node, as mutable objects

    [Node.append] stores references and assigns the [parent] attribute of
    objects that may already be referenced from elsewhere, so the object
    model keeps a store of objects and passes references around.  A
    reference is the index of the object in the store; a new object is
    allocated at the end. *)
Module Heap.
Local Open Scope list_scope.

Abbreviation ref := nat.

Record NodeObj := {
  obj_name : string;
  obj_layer : option Layer;
  obj_parent : option ref;       (* None is Python's None *)
  obj_children : list ref
}.

Abbreviation store := (list NodeObj).

(** One argument of [append] (or one element of [children] given to
    [__init__]): [None], a value that is not a [Node] (a string), or a
    reference to a [Node]. *)
Inductive Arg :=
  | ArgNone
  | ArgStr (s : string)
  | ArgNode (node : ref).

Definition set_parent (parent : ref) (o : NodeObj) : NodeObj :=
  {| obj_name := obj_name o; obj_layer := obj_layer o;
     obj_parent := Some parent; obj_children := obj_children o |}.

Definition push_child (child : ref) (o : NodeObj) : NodeObj :=
  {| obj_name := obj_name o; obj_layer := obj_layer o;
     obj_parent := obj_parent o; obj_children := obj_children o ++ [child] |}.

(** The object left by [__init__] before its call of [append]: the class
    attribute [parent = None] is what reading [parent] gives. *)
Definition fresh_obj (name : string) (layer : option Layer) : NodeObj :=
  {| obj_name := name; obj_layer := layer;
     obj_parent := None; obj_children := [] |}.

(** The two assignments of the loop body of [append]:
    [node.parent = self] and [self.children.append(node)]. *)
Definition attach (σ : store) (self node : ref) : store :=
  alter (push_child node) self (alter (set_parent self) node σ).

(** [self.append( *nodes )].  [Node(node)] for a string has no children
    argument, so its [__init__] allocates and does not call [append]. *)
Fixpoint append (σ : store) (self : ref) (nodes : list Arg) : store :=
  match nodes with
  | [] => σ
  | ArgNone :: rest => append σ self rest
  | ArgStr s :: rest =>
      let node := length σ in
      append (attach (σ ++ [fresh_obj s None]) self node) self rest
  | ArgNode node :: rest => append (attach σ self node) self rest
  end.

(** [Node(name, children, layer)]: the new store and the new object's
    reference.  [children] is [None] or a list; an empty list is falsy. *)
Definition Node_init (σ : store) (name : string)
    (children : option (list Arg)) (layer : option Layer) : store * ref :=
  let self := length σ in
  let σ1 := σ ++ [fresh_obj name layer] in
  match children with
  | Some ((_ :: _) as children) => (append σ1 self children, self)
  | _ => (σ1, self)
  end.

Definition children_of (σ : store) (n : ref) : list ref :=
  from_option obj_children [] (σ !! n).

(** The parent invariant: every child listed by a node has that node as
    its parent. *)
Definition parent_inv (σ : store) : Prop :=
  ∀ n o c, σ !! n = Some o → c ∈ obj_children o →
    ∃ oc, σ !! c = Some oc ∧ obj_parent oc = Some n.

(** The references [append] adds to [self.children], in order, when the
    store has [next] objects before the call. *)
Fixpoint attached (next : nat) (nodes : list Arg) : list ref :=
  match nodes with
  | [] => []
  | ArgNone :: rest => attached next rest
  | ArgStr _ :: rest => next :: attached (S next) rest
  | ArgNode node :: rest => node :: attached next rest
  end.

(** The strings among the arguments, in order. *)
Fixpoint wrapped (nodes : list Arg) : list string :=
  match nodes with
  | [] => []
  | ArgStr s :: rest => s :: wrapped rest
  | _ :: rest => wrapped rest
  end.

Definition not_None (a : Arg) : bool :=
  match a with ArgNone => false | _ => true end.

(** A reference argument is live: Python has no dangling references. *)
Definition live (σ : store) (a : Arg) : Prop :=
  match a with ArgNode node => node < length σ | _ => True end.

(** A reference argument that no node other than [self] lists as a
    child. *)
Definition unattached (σ : store) (self : ref) (a : Arg) : Prop :=
  match a with
  | ArgNode node =>
      ∀ n o, σ !! n = Some o → node ∈ obj_children o → n = self
  | _ => True
  end.

(** Stores reachable by calls of [Node.__init__] and [Node.append]. *)
Inductive constructed : store → Prop :=
  | constructed_empty : constructed []
  | constructed_init σ name children layer :
      constructed σ →
      Forall (live σ) (default [] children) →
      constructed (Node_init σ name children layer).1
  | constructed_append σ self nodes :
      constructed σ →
      self < length σ →
      Forall (live σ) nodes →
      constructed (append σ self nodes).

(** The same, where a node is handed over only while no other node lists
    it as a child. *)
Inductive built : store → Prop :=
  | built_empty : built []
  | built_init σ name children layer :
      built σ →
      Forall (live σ) (default [] children) →
      Forall (unattached σ (length σ)) (default [] children) →
      built (Node_init σ name children layer).1
  | built_append σ self nodes :
      built σ →
      self < length σ →
      Forall (live σ) nodes →
      Forall (unattached σ self) nodes →
      built (append σ self nodes).

(** The object at [i] after [attach σ self node], from the one before. *)
Definition attached_obj (self node i : ref) (o : NodeObj) : NodeObj :=
  {| obj_name := obj_name o; obj_layer := obj_layer o;
     obj_parent := if decide (i = node) then Some self else obj_parent o;
     obj_children := if decide (i = self) then obj_children o ++ [node]
                     else obj_children o |}.

(** The object [append] makes of a string [s]: named [s], without layer
    and children, with [self] as its parent. *)
Definition wrapped_obj (self : ref) (s : string) : NodeObj :=
  {| obj_name := s; obj_layer := None;
     obj_parent := Some self; obj_children := [] |}.

Definition refs_below (base : nat) (a : Arg) : Prop :=
  match a with ArgNode node => node < base | _ => True end.

(** [root = Node("root")] *)
Definition root_store : store := (Node_init [] "root" None None).1.

(** [a = Node("a"); p1 = Node("p1", [a]); p2 = Node("p2", [a])] *)
Definition two_parents_store : store :=
  (Node_init
     (Node_init (Node_init [] "a" None None).1
                "p1" (Some [ArgNode 0]) None).1
     "p2" (Some [ArgNode 0]) None).1.
End Heap.

(** ** Loading the last metadata file

    File names are strings of one-byte characters.  [os.path] is the POSIX
    flavour ([posixpath]). *)

(** [s.rfind(c)]: the highest index of [c] in [s], or -1. *)
Fixpoint rfind_from (c : ascii) (s : string) (i found : Z) : Z :=
  match s with
  | EmptyString => found
  | String d rest =>
      rfind_from c rest (i + 1) (if Ascii.eqb d c then i else found)
  end.

Definition rfind (c : ascii) (s : string) : Z := rfind_from c s 0 (-1).

(** [s[i:j]] for [0 <= i <= j]. *)
Definition slice (s : string) (i j : Z) : string :=
  substring (Z.to_nat i) (Z.to_nat (j - i)) s.

Definition strlen (s : string) : Z := Z.of_nat (String.length s).

Fixpoint all_dots (s : string) : bool :=
  match s with
  | EmptyString => true
  | String c rest => Ascii.eqb c "."%char && all_dots rest
  end.

(** [os.path.splitext(p)[0]]: the extension starts at the last dot of the
    last path component, unless only dots precede it there. *)
Definition splitext_root (p : string) : string :=
  let sepIndex := rfind "/"%char p in
  let dotIndex := rfind "."%char p in
  if (sepIndex <? dotIndex)%Z then
    if all_dots (slice p (sepIndex + 1) dotIndex) then p
    else slice p 0 dotIndex
  else p.

(** [os.path.basename(p)] *)
Definition basename (p : string) : string :=
  slice p (rfind "/"%char p + 1) (strlen p).

(** [s.endswith(suffix)] *)
Definition endswith (s suffix : string) : bool :=
  (strlen suffix <=? strlen s)%Z
  && String.eqb (slice s (strlen s - strlen suffix) (strlen s)) suffix.

(** [s] without its prefix [pre], when it has that prefix. *)
Fixpoint strip_prefix (pre s : string) : option string :=
  match pre, s with
  | EmptyString, _ => Some s
  | String a pre', String b s' =>
      if Ascii.eqb a b then strip_prefix pre' s' else None
  | String _ _, EmptyString => None
  end.

(** One of the digits 0 to 9.  These are the decimal digits among the
    characters of an ASCII name; in a name with other characters, [\d]
    and [int] also take the decimal digits of other scripts, so what
    depends on which names the pattern accepts is stated for ASCII
    names. *)
Definition is_digit (c : ascii) : bool :=
  (48 <=? nat_of_ascii c)%nat && (nat_of_ascii c <=? 57)%nat.

(** Exactly [n] decimal digits at the start of [s], and what follows. *)
Fixpoint take_digits (n : nat) (s : string) : option (string * string) :=
  match n with
  | O => Some (EmptyString, s)
  | S n' =>
      match s with
      | String c rest =>
          if is_digit c then
            '(digits, rest') ← take_digits n' rest;
            Some (String c digits, rest')
          else None
      | EmptyString => None
      end
  end.

(** [metadata_pattern.match(filename)] for the pattern
    [re.escape(base) + '_(\d{10})\.meta']: the escaped base matches itself
    only, and [match] anchors the pattern at the start of [filename] and
    nowhere else.  The result is group 1. *)
Definition metadata_pattern_match (base filename : string) : option string :=
  rest ← strip_prefix base filename;
  rest ← strip_prefix "_" rest;
  '(timestamp, rest) ← take_digits 10 rest;
  _ ← strip_prefix ".meta" rest;
  Some timestamp.

(** [int(digits)] for a string of decimal digits. *)
Definition int_of_digits (digits : string) : Z :=
  fold_left (λ acc c, (10 * acc + (Z.of_nat (nat_of_ascii c) - 48))%Z)
            (list_ascii_of_string digits) 0%Z.

(** The order of Python tuples [(int, str)]: by the integer, then by the
    string, character by character. *)
Definition tuple_le (a b : Z * string) : Prop :=
  (a.1 < b.1)%Z ∨ (a.1 = b.1 ∧ String.leb a.2 b.2 = true).

#[global] Instance tuple_le_dec : RelDecision tuple_le.
Proof. intros a b. unfold tuple_le. apply _. Defined.

(** What [json.load] does with the text of a file; [None] stands for a
    raised exception. *)
Class JsonModule := {
  Json : Type;
  json_load : string → option Json
}.

(** The project's directory: the names [os.listdir] returns, each with the
    text of the file at that name, or [None] when [os.path.exists] is false
    for it.  A name that exists is a file that [codecs.open] opens: a
    listing that fails and a name that cannot be opened have no
    counterpart here. *)
Definition Directory := list (string * option string).

Definition dir_entry (dir : Directory) (filename : string) : option (option string) :=
  snd <$> List.find (λ e, String.eqb (fst e) filename) dir.

Section LastMetadata.
Context `{JsonModule}.

(** The loop of [_last_metadata] over the directory listing. *)
Definition matched_metadata_files (base : string) (dir : Directory)
    : list (Z * string) :=
  omap (λ entry,
          let filename := fst entry in
          if endswith filename ".meta" then
            timestamp ← metadata_pattern_match base filename;
            Some (int_of_digits timestamp, filename)
          else None) dir.

(** [_last_metadata]: [fileName] is [self.project.fileName()].  The
    result is [None] (raised), [Some None] (returned [None]) or
    [Some (Some metadata)]. *)
Definition _last_metadata (fileName : string) (dir : Directory)
    : option (option Json) :=
  let project_filename := splitext_root fileName in
  let matched := matched_metadata_files (basename project_filename) dir in
  match matched with
  | [] => Some None
  | _ :: _ =>
      (* sorted(matched_metadata_files, reverse=True)[0][1] *)
      '(_, metadata_filename) ← head (sorted_reverse tuple_le matched);
      match dir_entry dir metadata_filename with
      | Some (Some text) => Some <$> json_load text
      | _ => Some None
      end
  end.
End LastMetadata.

(** ** Sample imports and sample data

    Instances of the parameters for running the model on concrete inputs:
    conversions in exact arithmetic at 96 DPI from a table of inches per map
    unit, a parser of unsigned decimal numerals, and a loader that accepts
    the texts starting with an opening brace.  They stand for no particular
    version of the imported modules. *)

Definition sample_inches_per_unit (units : string) : option Q :=
  if String.eqb units "meters" then Some (3937 # 100)
  else if String.eqb units "feet" then Some (12 # 1)
  else if String.eqb units "miles" then Some (63360 # 1)
  else if String.eqb units "degrees" then Some (4374754 # 1)
  else None.

Definition scale_value (s : Scale) : Q :=
  match s with
  | IntScale n => inject_Z n
  | FloatScale x => x
  end.

Definition sample_scales_to_resolutions (scales : list Scale) (units : string)
    : option (list Decimal) :=
  factor ← sample_inches_per_unit units;
  Some ((λ s, Q2Qc (scale_value s / ((96 # 1) * factor))) <$> scales).

Definition sample_resolutions_to_scales (resolutions : list Decimal)
    (units : string) : option (list Z) :=
  factor ← sample_inches_per_unit units;
  Some ((λ r : Decimal, Qfloor (this r * (96 # 1) * factor + (1 # 2)))
        <$> resolutions).

Fixpoint all_digits (s : string) : bool :=
  match s with
  | EmptyString => true
  | String c rest => is_digit c && all_digits rest
  end.

Definition sample_int (text : string) : option Z :=
  match text with
  | EmptyString => None
  | _ => if all_digits text then Some (int_of_digits text) else None
  end.

Definition sample_imports : Imports := {|
  utils_scales_to_resolutions := sample_scales_to_resolutions;
  utils_resolutions_to_scales := sample_resolutions_to_scales;
  to_decimal_array := λ values, Some (Q2Qc <$> values);
  py_int := sample_int
|}.

Definition sample_json : JsonModule := {|
  Json := string;
  json_load := λ text, if String.prefix "{" text then Some text else None
|}.

(** A tiled background layer with three resolutions, shown between the
    scales 1:2000 and 1:20000. *)
Definition sample_wms_layer : Layer := {|
  layer_id := "osm_1";
  layer_type := RasterLayer;
  providerType := "wms";
  hasScaleBasedVisibility := true;
  maximumScale := 20000 # 1;
  minimumScale := 2000 # 1;
  provider_resolutions := Some [1 # 1; 2 # 1; 10 # 1]
|}.

Definition sample_vector_layer : Layer := {|
  layer_id := "roads_2";
  layer_type := VectorLayer;
  providerType := "ogr";
  hasScaleBasedVisibility := false;
  maximumScale := 0 # 1;
  minimumScale := 0 # 1;
  provider_resolutions := None
|}.

Definition sample_plugin : Plugin := {|
  canvas_map_units := 0;
  project_map_layers := [sample_vector_layer; sample_wms_layer];
  project_scales_list := Some ["1:10000"; "1:5000"]
|}.

(** ** [Node.cascade]

    The callback is run for its effect; here it is a function on a state
    of the caller's choice that leaves the tree itself alone. *)
Fixpoint cascade {S : Type} (fn : Node → S → S) (self : Node) (st : S) : S :=
  match self with
  | mkNode _ _ cs =>
      fn self
        ((fix loop (cs : list Node) (st : S) : S :=
            match cs with
            | [] => st
            | child :: rest => loop rest (cascade fn child st)
            end) cs st)
  end.

(** The nodes of a tree in post-order: the children's subtrees from left
    to right, then the node. *)
Fixpoint postorder (n : Node) : list Node :=
  match n with
  | mkNode _ _ cs => concat (map postorder cs) ++ [n]
  end.

(** A project whose canvas reports a unit code that [map_units] has no
    key for. *)
Definition sample_plugin_unit4 : Plugin := {|
  canvas_map_units := 4;
  project_map_layers := [sample_wms_layer];
  project_scales_list := Some ["1:10000"]
|}.

(** A project without base layers and without stored scales. *)
Definition sample_plugin_empty : Plugin := {|
  canvas_map_units := 0;
  project_map_layers := [sample_vector_layer];
  project_scales_list := None
|}.

(** A tiled layer whose maximum scale is the smaller number of the two. *)
Definition sample_inverted_layer : Layer := {|
  layer_id := "ortho_3";
  layer_type := RasterLayer;
  providerType := "wms";
  hasScaleBasedVisibility := true;
  maximumScale := 2000 # 1;
  minimumScale := 20000 # 1;
  provider_resolutions := Some [1 # 1; 2 # 1; 10 # 1]
|}.

(** The names of the groups of a host tree, root included. *)
Fixpoint tree_group_names (t : LayerTreeNode) : list string :=
  match t with
  | QgsLayerTreeLayer _ => []
  | QgsLayerTreeGroup g cs => g :: concat (map tree_group_names cs)
  end.

(** The leaves of what a mirroring function returned; none for [None]. *)
Definition returned_leaves (tree : option Node) : list Node :=
  from_option leaf_nodes [] tree.

(** A node of a mirrored tree is a leaf carrying a layer or a group with
    children and no layer. *)
Definition leaf_or_group (m : Node) : Prop :=
  (children m = [] ∧ is_Some (layer m)) ∨ (children m ≠ [] ∧ layer m = None).


(** A host tree to run the mirroring functions on: a vector layer, a group
    holding a tiled layer, and an empty group. *)
Definition sample_tree : LayerTreeNode :=
  QgsLayerTreeGroup ""
    [QgsLayerTreeLayer sample_vector_layer;
     QgsLayerTreeGroup "background" [QgsLayerTreeLayer sample_wms_layer];
     QgsLayerTreeGroup "drafts" []].

Definition sample_overlay_tree : Node :=
  mkNode "" None [mkNode "roads_2" (Some sample_vector_layer) []].

(** A project directory with two metadata files of the project, a
    metadata file of another project and the project file. *)
Definition sample_directory : Directory :=
  [("proj_1600000000.meta", Some "{}");
   ("proj.qgs", Some "<qgis>");
   ("other_1700000000.meta", Some "{o}");
   ("proj_1650000000.meta", Some "{new}")].

(** [a = Node("a"); p = Node("p", [a])]: the store and the two
    references. *)
Definition parent_child_store : Heap.store :=
  (Heap.Node_init (Heap.Node_init [] "a" None None).1
                  "p" (Some [Heap.ArgNode 0]) None).1.

(** ** The mirroring functions on the store of objects

    [overlays_tree] as it runs on mutable [Node] objects: every
    [Node(...)] allocates, and [Node(name, children)] attaches the
    children made before.  The two functions of the source differ in the
    layer predicate only, which is the parameter [p]; the list [children]
    is built by appending, as in the source. *)
Fixpoint overlays_tree_store (p : Layer → bool) (tree_node : LayerTreeNode)
    (σ : Heap.store) : Heap.store * option Heap.ref :=
  match tree_node with
  | QgsLayerTreeLayer layer =>
      if p layer then
        let '(σ', node) :=
          Heap.Node_init σ (layer_id layer) None (Some layer) in
        (σ', Some node)
      else (σ, None)
  | QgsLayerTreeGroup group_name tree_children =>
      let '(σ1, children) :=
        (fix loop (cs : list LayerTreeNode) (σ : Heap.store)
             (children : list Heap.ref) : Heap.store * list Heap.ref :=
           match cs with
           | [] => (σ, children)
           | child_tree_node :: rest =>
               let '(σ', node) := overlays_tree_store p child_tree_node σ in
               loop rest σ'
                 match node with
                 | Some node => (children ++ [node])%list
                 | None => children
                 end
           end) tree_children σ [] in
      match children with
      | [] => (σ1, None)
      | _ :: _ =>
          let '(σ2, node) :=
            Heap.Node_init σ1 group_name
              (Some (Heap.ArgNode <$> children)) None in
          (σ2, Some node)
      end
  end.

(** [get_project_layers] and [get_project_base_layers] on a store. *)
Definition get_project_layers_store (root_node : LayerTreeNode)
    (σ : Heap.store) : Heap.store * option Heap.ref :=
  overlays_tree_store is_overlay_layer_for_publish root_node σ.

Definition get_project_base_layers_store (root_node : LayerTreeNode)
    (σ : Heap.store) : Heap.store * option Heap.ref :=
  overlays_tree_store is_base_layer_for_publish root_node σ.

(** The object at [r] and the objects below it, read as a tree. *)
Inductive represents (σ : Heap.store) : Heap.ref → Node → Prop :=
  | represents_node r o cs :
      σ !! r = Some o →
      Forall2 (represents σ) (Heap.obj_children o) cs →
      represents σ r (mkNode (Heap.obj_name o) (Heap.obj_layer o) cs).

(** The loop of [overlays_tree_store] over the children of a group. *)
Fixpoint overlays_children_store (p : Layer → bool)
    (cs : list LayerTreeNode) (σ : Heap.store) (children : list Heap.ref)
    : Heap.store * list Heap.ref :=
  match cs with
  | [] => (σ, children)
  | child_tree_node :: rest =>
      let '(σ', node) := overlays_tree_store p child_tree_node σ in
      overlays_children_store p rest σ'
        match node with
        | Some node => (children ++ [node])%list
        | None => children
        end
  end.

(** [σ'] has the objects of [σ] with their names, layers and children. *)
Definition same_shape (σ σ' : Heap.store) : Prop :=
  ∀ i o, σ !! i = Some o →
    ∃ o', σ' !! i = Some o' ∧ Heap.obj_name o' = Heap.obj_name o
      ∧ Heap.obj_layer o' = Heap.obj_layer o
      ∧ Heap.obj_children o' = Heap.obj_children o.

(** [root] was allocated after [σ0], no object of [σ'] lists it as a
    child and it has no parent. *)
Definition root_ok (σ0 σ' : Heap.store) (root : Heap.ref) : Prop :=
  (length σ0 ≤ root < length σ')%nat
  ∧ (∀ n o, σ' !! n = Some o → root ∉ Heap.obj_children o)
  ∧ ∃ o, σ' !! root = Some o ∧ Heap.obj_parent o = None.

(** [σ'] keeps the objects of [σ] as they are, and the children of its
    further objects are further objects. *)
Definition extends (σ σ' : Heap.store) : Prop :=
  (length σ ≤ length σ')%nat
  ∧ (∀ i, (i < length σ)%nat → σ' !! i = σ !! i)
  ∧ ∀ n o c, σ' !! n = Some o → (length σ ≤ n)%nat →
      c ∈ Heap.obj_children o → (length σ ≤ c)%nat.

(** No child reference dangles: every child an object lists is an object
    of the store, as it is for references in Python. *)
Definition children_live (σ : Heap.store) : Prop :=
  ∀ n o c, σ !! n = Some o → c ∈ Heap.obj_children o → (c < length σ)%nat.

(** The parent invariant for the objects from reference [k] on. *)
Definition parent_inv_from (k : nat) (σ : Heap.store) : Prop :=
  ∀ n o c, (k ≤ n)%nat → σ !! n = Some o → c ∈ Heap.obj_children o →
    ∃ oc, σ !! c = Some oc ∧ Heap.obj_parent oc = Some n.

(** A name made of ASCII characters only: its bytes are its characters,
    and the decimal digits among them are 0 to 9. *)
Definition is_ascii_string (s : string) : bool :=
  forallb (λ c, (nat_of_ascii c <? 128)%nat) (list_ascii_of_string s).

(** Whether a string holds a colon. *)
Fixpoint has_colon (s : string) : bool :=
  match s with
  | EmptyString => false
  | String c rest => Ascii.eqb c ":"%char || has_colon rest
  end.

(** Every child reference is a live object, and a node that has a parent
    is among the children of that parent. *)
Definition well_linked (σ : Heap.store) : Prop :=
  ∀ n o, σ !! n = Some o →
    (∀ c, c ∈ Heap.obj_children o → (c < length σ)%nat)
    ∧ (∀ q, Heap.obj_parent o = Some q →
         ∃ oq, σ !! q = Some oq ∧ n ∈ Heap.obj_children oq).

(** The plugin state with another stored scale list. *)
Definition with_scales (self : Plugin) (entries : list string) : Plugin := {|
  canvas_map_units := canvas_map_units self;
  project_map_layers := project_map_layers self;
  project_scales_list := Some entries
|}.

(** * Properties *)

Local Open Scope list_scope.

(** ** Induction over the nested trees *)

Lemma LayerTreeNode_tree_ind (P : LayerTreeNode → Prop) :
  (∀ l, P (QgsLayerTreeLayer l)) →
  (∀ g cs, Forall P cs → P (QgsLayerTreeGroup g cs)) →
  ∀ t, P t.
Proof.
  intros Hlayer Hgroup. fix IH 1. intros [l|g cs].
  - apply Hlayer.
  - apply Hgroup. induction cs as [|c cs IHcs]; constructor; [apply IH|apply IHcs].
Qed.

Lemma Node_tree_ind (P : Node → Prop) :
  (∀ s l cs, Forall P cs → P (mkNode s l cs)) →
  ∀ n, P n.
Proof.
  intros Hnode. fix IH 1. intros [s l cs].
  apply Hnode. induction cs as [|c cs IHcs]; constructor; [apply IH|apply IHcs].
Qed.

(** ** The layer predicates *)

(** C4: a layer is a base layer exactly when it is a raster layer whose
    provider type is "wms". *)
Theorem is_base_layer_for_publish_iff (layer : Layer) :
  is_base_layer_for_publish layer = true
  ↔ layer_type layer = RasterLayer ∧ providerType layer = "wms".
Proof.
  unfold is_base_layer_for_publish.
  rewrite andb_true_iff, !bool_decide_eq_true. tauto.
Qed.

(** C5: a layer is an overlay layer exactly when it is a vector layer, or a
    raster layer whose provider type is not "wms"; no layer is both an
    overlay layer and a base layer. *)
Theorem is_overlay_layer_for_publish_iff (layer : Layer) :
  (is_overlay_layer_for_publish layer = true
   ↔ layer_type layer = VectorLayer
     ∨ (layer_type layer = RasterLayer ∧ providerType layer ≠ "wms"))
  ∧ ¬ (is_overlay_layer_for_publish layer = true
       ∧ is_base_layer_for_publish layer = true).
Proof.
  unfold is_overlay_layer_for_publish, is_base_layer_for_publish.
  rewrite orb_true_iff, !andb_true_iff, negb_true_iff,
    bool_decide_eq_false, !bool_decide_eq_true.
  split; [tauto|]. intros [[Hv|[_ Hp]] [Hr Hw]]; congruence.
Qed.

(** ** The two mirroring functions are one function *)

Lemma loop_is_omap (f : LayerTreeNode → option Node) (cs : list LayerTreeNode) :
  (fix loop (cs : list LayerTreeNode) : list Node :=
     match cs with
     | [] => []
     | child_tree_node :: rest =>
         match f child_tree_node with
         | Some node => node :: loop rest
         | None => loop rest
         end
     end) cs = omap f cs.
Proof. induction cs as [|c cs IH]; [done|]. simpl. by rewrite IH. Qed.

Lemma mirror_tree_group p g cs :
  mirror_tree p (QgsLayerTreeGroup g cs)
  = match omap (mirror_tree p) cs with
    | [] => None
    | ns => Some (mkNode g None ns)
    end.
Proof. reflexivity. Qed.

Lemma omap_ext_Forall {A B} (f g : A → option B) (l : list A) :
  Forall (λ x, f x = g x) l → omap f l = omap g l.
Proof.
  induction 1 as [|x l Hx _ IH]; [done|].
  change (match f x with Some y => y :: omap f l | None => omap f l end
          = match g x with Some y => y :: omap g l | None => omap g l end).
  by rewrite Hx, IH.
Qed.

Lemma base_overlays_tree_mirror (t : LayerTreeNode) :
  BaseLayers.overlays_tree t = mirror_tree is_base_layer_for_publish t.
Proof.
  induction t as [l|g cs IH] using LayerTreeNode_tree_ind; [done|].
  rewrite mirror_tree_group, <-(omap_ext_Forall _ _ _ IH).
  simpl. rewrite loop_is_omap. by destruct (omap _ cs).
Qed.

Lemma overlay_overlays_tree_mirror (t : LayerTreeNode) :
  OverlayLayers.overlays_tree t = mirror_tree is_overlay_layer_for_publish t.
Proof.
  induction t as [l|g cs IH] using LayerTreeNode_tree_ind; [done|].
  rewrite mirror_tree_group, <-(omap_ext_Forall _ _ _ IH).
  simpl. rewrite loop_is_omap. by destruct (omap _ cs).
Qed.

(** C6: [get_project_base_layers] and [get_project_layers] are the one
    recursive mirroring function taken at the base-layer predicate and at
    the overlay-layer predicate, on every host layer tree. *)
Theorem get_project_layers_same_helper (root_node : LayerTreeNode) :
  BaseLayers.get_project_base_layers root_node
    = mirror_tree is_base_layer_for_publish root_node
  ∧ OverlayLayers.get_project_layers root_node
    = mirror_tree is_overlay_layer_for_publish root_node.
Proof.
  split; [apply base_overlays_tree_mirror|apply overlay_overlays_tree_mirror].
Qed.

(** ** The mirror of a host tree *)

Section Mirror.
Variable p : Layer → bool.

Let leaf_of (l : Layer) : Node := mkNode (layer_id l) (Some l) [].
Let keeps (l : Layer) : Prop := p l = true.
Let drops (l : Layer) : Prop := p l = false.

(** What is proved of a host tree, by induction on it. *)
Let mirror_ok (t : LayerTreeNode) : Prop :=
  (∀ n, mirror_tree p t = Some n ↔ mirrors p t n)
  ∧ (mirror_tree p t = None ↔ Forall drops (tree_layers t))
  ∧ (∀ n, mirror_tree p t = Some n →
       leaf_nodes n = leaf_of <$> filter keeps (tree_layers t)).

Lemma omap_cons_eq {A B} (f : A → option B) x l :
  omap f (x :: l)
  = match f x with Some y => y :: omap f l | None => omap f l end.
Proof. reflexivity. Qed.

Lemma filter_drops_nil (ls : list Layer) :
  Forall drops ls → filter keeps ls = [].
Proof.
  induction 1 as [|l ls Hl _ IH]; [done|].
  rewrite filter_cons_False; [done|]. unfold keeps, drops in *. congruence.
Qed.

Lemma children_mirror (cs : list LayerTreeNode) :
  Forall mirror_ok cs →
  ∀ ns, omap (mirror_tree p) cs = ns ↔ mirrors_children p cs ns.
Proof.
  induction 1 as [|c cs (Ha & Hb & _) _ IH]; intros ns.
  - split; [intros <-; constructor|by inversion 1].
  - rewrite omap_cons_eq. split.
    + destruct (mirror_tree p c) as [n|] eqn:Hc; intros <-.
      * apply mirrors_keep; [by apply Ha|by apply IH].
      * apply mirrors_omit; [by apply Hb|by apply IH].
    + inversion 1 as [|c' cs' n ns' Hm Hms|c' cs' ns' Hd Hms]; subst.
      * apply Ha in Hm. rewrite Hm. f_equal. by apply IH.
      * apply Hb in Hd. rewrite Hd. by apply IH.
Qed.

Lemma children_none (cs : list LayerTreeNode) :
  Forall mirror_ok cs →
  omap (mirror_tree p) cs = [] ↔ Forall drops (concat (map tree_layers cs)).
Proof.
  induction 1 as [|c cs (_ & Hb & _) _ IH]; [done|].
  rewrite omap_cons_eq. simpl. rewrite Forall_app, <-IH, <-Hb.
  destruct (mirror_tree p c); [|tauto].
  split; [done|]. by intros [? _].
Qed.

Lemma children_leaves (cs : list LayerTreeNode) :
  Forall mirror_ok cs →
  concat (map leaf_nodes (omap (mirror_tree p) cs))
  = leaf_of <$> filter keeps (concat (map tree_layers cs)).
Proof.
  induction 1 as [|c cs (_ & Hb & Hc) _ IH]; [done|].
  rewrite omap_cons_eq. simpl. rewrite list.filter_app, fmap_app, <-IH.
  destruct (mirror_tree p c) as [n|] eqn:Hn.
  - simpl. by rewrite (Hc n).
  - by rewrite filter_drops_nil by (by apply Hb).
Qed.

Lemma mirror_tree_ok (t : LayerTreeNode) : mirror_ok t.
Proof.
  induction t as [l|g cs IH] using LayerTreeNode_tree_ind.
  - unfold mirror_ok. simpl. destruct (p l) eqn:Hl; split_and!.
    + intros n. split; [intros [= <-]; by constructor|].
      inversion 1; by subst.
    + split; [done|]. intros Hd. inversion Hd as [|?? Hd' _]; subst.
      unfold drops in Hd'. congruence.
    + intros n [= <-]. simpl. by rewrite filter_cons_True.
    + intros n. split; [done|]. inversion 1; congruence.
    + split; [|done]. intros _. by repeat constructor.
    + done.
  - unfold mirror_ok. rewrite mirror_tree_group.
    pose proof (children_mirror cs IH) as Hm.
    pose proof (children_none cs IH) as Hn.
    pose proof (children_leaves cs IH) as Hl.
    destruct (omap (mirror_tree p) cs) as [|n1 ns] eqn:Hcs; split_and!.
    + intros n. split; [done|].
      inversion 1 as [|g' cs' ns' Hms Hne]; subst.
      apply Hm in Hms. by subst.
    + split; [|done]. intros _. by apply Hn.
    + done.
    + intros n. split.
      * intros [= <-]. constructor; [by apply Hm|done].
      * inversion 1 as [|g' cs' ns' Hms Hne]; subst.
        apply Hm in Hms. by subst.
    + split; [done|]. intros Hd. by apply Hn in Hd.
    + intros n [= <-]. exact Hl.
Qed.
End Mirror.

(** C3: on every host layer tree, [get_project_layers] returns the mirror
    of the tree restricted to the overlay layers: a node is returned exactly
    when it mirrors the tree (groups keep their names and nesting, a group
    without a qualifying layer below it is left out); the result is [None]
    exactly when no layer of the tree qualifies; and the leaves of a
    returned tree are, in order, the qualifying layers of the host tree,
    each named by its id and carrying the layer. *)
Theorem get_project_layers_mirrors (root_node : LayerTreeNode) :
  (∀ n, OverlayLayers.get_project_layers root_node = Some n
        ↔ mirrors is_overlay_layer_for_publish root_node n)
  ∧ (OverlayLayers.get_project_layers root_node = None
     ↔ Forall (λ l, is_overlay_layer_for_publish l = false)
              (tree_layers root_node))
  ∧ (∀ n, OverlayLayers.get_project_layers root_node = Some n →
       leaf_nodes n
       = (λ l, mkNode (layer_id l) (Some l) [])
         <$> filter (λ l, is_overlay_layer_for_publish l = true)
                    (tree_layers root_node)).
Proof.
  unfold OverlayLayers.get_project_layers.
  rewrite overlay_overlays_tree_mirror.
  apply (mirror_tree_ok is_overlay_layer_for_publish root_node).
Qed.

(** ** [Node.find] *)

Lemma find_unfold (s : string) (l : option Layer) (cs : list Node) (nm : string) :
  find (mkNode s l cs) nm
  = if decide (nm = s) then Some (mkNode s l cs)
    else
      (fix loop (cs : list Node) : option Node :=
         match cs with
         | [] => None
         | child :: rest =>
             match find child nm with
             | Some res => Some res
             | None => loop rest
             end
         end) cs.
Proof. reflexivity. Qed.

Lemma find_loop_preorder (nm : string) (cs : list Node) :
  Forall (λ c, find c nm = head (filter (λ n, name n = nm) (preorder c))) cs →
  (fix loop (cs : list Node) : option Node :=
     match cs with
     | [] => None
     | child :: rest =>
         match find child nm with
         | Some res => Some res
         | None => loop rest
         end
     end) cs
  = head (filter (λ n, name n = nm) (concat (map preorder cs))).
Proof.
  induction 1 as [|c cs Hc _ IH]; [done|].
  rewrite Hc, IH. cbn [map concat]. rewrite list.filter_app.
  by destruct (filter _ (preorder c)).
Qed.

Lemma find_head_preorder (self : Node) (nm : string) :
  find self nm = head (filter (λ n, name n = nm) (preorder self)).
Proof.
  induction self as [s l cs IH] using Node_tree_ind.
  rewrite find_unfold. cbn [preorder]. destruct (decide (nm = s)) as [->|Hne].
  - by rewrite filter_cons_True.
  - rewrite filter_cons_False by (simpl; congruence).
    by apply find_loop_preorder.
Qed.

Lemma head_filter_Some {A} (P : A → Prop) `{!∀ x, Decision (P x)} (l : list A) r :
  head (filter P l) = Some r →
  ∃ before after, l = before ++ r :: after ∧ P r ∧ Forall (λ x, ¬ P x) before.
Proof.
  induction l as [|x l IH]; [done|].
  destruct (decide (P x)) as [Hx|Hx].
  - rewrite filter_cons_True by done. intros [= <-].
    by exists [], l.
  - rewrite filter_cons_False by done. intros Hr.
    destruct (IH Hr) as (before & after & -> & HP & Hb).
    exists (x :: before), after. split_and!; [done|done|by constructor].
Qed.

Lemma head_filter_None {A} (P : A → Prop) `{!∀ x, Decision (P x)} (l : list A) :
  head (filter P l) = None ↔ ∀ x, x ∈ l → ¬ P x.
Proof.
  rewrite head_None. split.
  - intros Hnil x Hx HP. by apply (filter_nil_not_elem_of P l x).
  - intros Hall. induction l as [|x l IH]; [done|].
    rewrite filter_cons_False by (apply Hall; left).
    apply IH. intros y Hy. apply Hall. by right.
Qed.

(** C10: [find] returns the first node, in pre-order of the subtree rooted
    at the receiver, whose name equals the argument; so it returns a node
    exactly when the subtree has a node of that name, the returned node has
    that name and no node before it in pre-order has; and it returns [None]
    exactly when no node of the subtree has that name. *)
Theorem find_first_in_preorder (self : Node) (nm : string) :
  find self nm = head (filter (λ n, name n = nm) (preorder self))
  ∧ (∀ r, find self nm = Some r →
       ∃ before after,
         preorder self = before ++ r :: after
         ∧ name r = nm
         ∧ Forall (λ n, name n ≠ nm) before)
  ∧ ((∃ r, find self nm = Some r) ↔ ∃ n, n ∈ preorder self ∧ name n = nm)
  ∧ (find self nm = None ↔ ∀ n, n ∈ preorder self → name n ≠ nm).
Proof.
  pose proof (find_head_preorder self nm) as Heq.
  pose proof (head_filter_None (λ n, name n = nm) (preorder self)) as Hnone.
  split_and!.
  - exact Heq.
  - intros r Hr. rewrite Heq in Hr. by apply head_filter_Some in Hr.
  - rewrite Heq. split.
    + intros [r Hr]. apply head_filter_Some in Hr as (b & a & Hl & Hn & _).
      exists r. split; [|done]. rewrite Hl.
      apply elem_of_app. right. left.
    + intros (n & Hin & Hn).
      destruct (head (filter _ (preorder self))) as [r|] eqn:Hh; [by exists r|].
      exfalso. by apply (proj1 Hnone eq_refl n).
  - by rewrite Heq.
Qed.

(** ** Visible resolutions of a layer *)

(** C7: without scale-based visibility the input list is returned as it
    is; with it, when the conversion of the layer's maximum and minimum
    scales gives [max_res] and [min_res], the result is the input list
    restricted, in its order, to the resolutions [res] with
    [min_res <= res < max_res]. *)
Theorem filter_visible_resolutions_spec `{Imports} (self : Plugin)
    (resolutions : list Decimal) (layer : Layer) (max_res min_res : Decimal) :
  (hasScaleBasedVisibility layer = true →
   scales_to_resolutions self
     [FloatScale (maximumScale layer); FloatScale (minimumScale layer)]
   = Some [max_res; min_res]) →
  filter_visible_resolutions self resolutions layer
  = Some (if hasScaleBasedVisibility layer
          then filter (λ res, (min_res ≤ res)%Qc ∧ (res < max_res)%Qc)
                      resolutions
          else resolutions).
Proof.
  intros Hconv. unfold filter_visible_resolutions.
  destruct (hasScaleBasedVisibility layer); [|done].
  by rewrite Hconv.
Qed.

Lemma filter_visible_resolutions_spec_witness :
  (hasScaleBasedVisibility sample_wms_layer = true →
   @scales_to_resolutions sample_imports sample_plugin
     [FloatScale (maximumScale sample_wms_layer);
      FloatScale (minimumScale sample_wms_layer)]
   = Some [Q2Qc (62500 # 11811); Q2Qc (6250 # 11811)])
  ∧ @filter_visible_resolutions sample_imports sample_plugin
      [Q2Qc 1; Q2Qc 2; Q2Qc 10] sample_wms_layer
    = Some [Q2Qc 1; Q2Qc 2].
Proof.
  assert (Hconv : hasScaleBasedVisibility sample_wms_layer = true →
    @scales_to_resolutions sample_imports sample_plugin
      [FloatScale (maximumScale sample_wms_layer);
       FloatScale (minimumScale sample_wms_layer)]
    = Some [Q2Qc (62500 # 11811); Q2Qc (6250 # 11811)]).
  { intros _. apply (bool_decide_unpack _). vm_compute. exact I. }
  split; [exact Hconv|].
  rewrite (@filter_visible_resolutions_spec sample_imports sample_plugin
             [Q2Qc 1; Q2Qc 2; Q2Qc 10] sample_wms_layer _ _ Hconv).
  apply (bool_decide_unpack _). vm_compute. exact I.
Defined.

(** ** The tile resolutions of a project *)

(** Sorting a set in reverse gives a strictly descending list. *)
Lemma flip_Qcle_total : Total (flip Qcle).
Proof. intros x y. destruct (total Qcle x y); auto. Qed.



Section Resolutions.
Context `{Imports}.














End Resolutions.




(** ** The parent invariant of the mutable [Node] objects *)

Import Heap.
Local Open Scope nat_scope.

Section HeapProofs.
Lemma attach_lookup σ self node i :
  attach σ self node !! i = attached_obj self node i <$> σ !! i.
Proof.
  unfold attach.
  destruct (decide (self = i)) as [Hs|Hs], (decide (node = i)) as [Hn|Hn].
  - subst node i. rewrite !list_lookup_alter_eq.
    destruct (σ !! self) as [o|]; [|done]. simpl. f_equal.
    unfold attached_obj, push_child, set_parent. simpl.
    by rewrite !decide_True.
  - subst i. rewrite list_lookup_alter_eq, list_lookup_alter_ne by done.
    destruct (σ !! self) as [o|]; [|done]. simpl. f_equal.
    unfold attached_obj, push_child. simpl.
    repeat case_decide; congruence.
  - subst node. rewrite list_lookup_alter_ne, list_lookup_alter_eq by done.
    destruct (σ !! i) as [o|]; [|done]. simpl. f_equal.
    unfold attached_obj, set_parent. simpl.
    repeat case_decide; congruence.
  - rewrite !list_lookup_alter_ne by done.
    destruct (σ !! i) as [o|]; [|done]. simpl. f_equal.
    unfold attached_obj. destruct o. simpl.
    repeat case_decide; congruence.
Qed.

Lemma attach_length σ self node : length (attach σ self node) = length σ.
Proof. unfold attach. by rewrite !length_alter. Qed.

Lemma parent_inv_bound σ n o c :
  parent_inv σ → σ !! n = Some o → c ∈ obj_children o → c < length σ.
Proof.
  intros Hinv Hn Hc. destruct (Hinv n o c Hn Hc) as (oc & Hoc & _).
  by eapply lookup_lt_Some.
Qed.

Lemma parent_inv_attach σ self node :
  parent_inv σ → unattached σ self (ArgNode node) →
  self < length σ → node < length σ →
  parent_inv (attach σ self node).
Proof.
  intros Hinv Hun Hself Hnode n o1 c. rewrite !attach_lookup.
  destruct (σ !! n) as [o|] eqn:Hn; [|done]. intros [= <-]. simpl.
  intros Hc.
  assert (c = node ∧ n = self ∨ c ∈ obj_children o) as [[-> ->]|Hold].
  { case_decide; [|by right]. apply elem_of_app in Hc as [?|Hc]; [by right|].
    apply list_elem_of_singleton in Hc. left. by split. }
  - destruct (lookup_lt_is_Some_2 σ node Hnode) as [oc Hoc].
    rewrite Hoc. eexists. split; [reflexivity|]. simpl. by rewrite decide_True.
  - destruct (Hinv n o c Hn Hold) as (oc & Hoc & Hp).
    rewrite Hoc. eexists. split; [reflexivity|]. simpl.
    destruct (decide (c = node)) as [->|Hcn]; [|done].
    by rewrite (Hun n o Hn Hold).
Qed.

Lemma parent_inv_alloc σ o :
  parent_inv σ → obj_children o = [] → parent_inv (σ ++ [o]).
Proof.
  intros Hinv Ho n on c Hn Hc.
  apply lookup_app_Some in Hn as [Hn|[_ Hn]].
  - destruct (Hinv n on c Hn Hc) as (oc & Hoc & Hp).
    exists oc. split; [|done]. by apply lookup_app_l_Some.
  - apply list_lookup_singleton_Some in Hn as [_ <-].
    rewrite Ho in Hc. by apply elem_of_nil in Hc.
Qed.

Lemma attach_lookup_other σ self node i :
  i ≠ self → i ≠ node → attach σ self node !! i = σ !! i.
Proof.
  intros Hs Hn. rewrite attach_lookup.
  destruct (σ !! i) as [o|]; [|done]. simpl. f_equal.
  unfold attached_obj. rewrite !decide_False by done. by destruct o.
Qed.

Lemma attach_children_self σ self node :
  self < length σ →
  children_of (attach σ self node) self = children_of σ self ++ [node].
Proof.
  intros Hself. unfold children_of. rewrite attach_lookup.
  destruct (lookup_lt_is_Some_2 σ self Hself) as [o ->]. simpl.
  by rewrite decide_True.
Qed.

Lemma unattached_attach σ self node a :
  unattached σ self a → unattached (attach σ self node) self a.
Proof.
  destruct a as [| |c]; [done|done|]. simpl. intros Hun n o1.
  rewrite attach_lookup. destruct (σ !! n) as [o|] eqn:Hn; [|done].
  intros [= <-]. simpl. destruct (decide (n = self)) as [|Hne]; [done|].
  by apply Hun.
Qed.

Lemma unattached_alloc σ self o a :
  obj_children o = [] → unattached σ self a → unattached (σ ++ [o]) self a.
Proof.
  destruct a as [| |c]; [done|done|]. simpl. intros Ho Hun n on Hn Hc.
  apply lookup_app_Some in Hn as [Hn|[_ Hn]]; [by eapply Hun|].
  apply list_lookup_singleton_Some in Hn as [_ <-].
  rewrite Ho in Hc. by apply elem_of_nil in Hc.
Qed.

Lemma unattached_fresh σ self :
  parent_inv σ → unattached σ self (ArgNode (length σ)).
Proof.
  intros Hinv n o Hn Hc.
  pose proof (parent_inv_bound σ n o _ Hinv Hn Hc). lia.
Qed.

Lemma append_spec (nodes : list Arg) : ∀ (σ : store) (self base : nat),
  parent_inv σ → self < base → base ≤ length σ →
  Forall (refs_below base) nodes → Forall (unattached σ self) nodes →
  parent_inv (append σ self nodes)
  ∧ children_of (append σ self nodes) self
    = children_of σ self ++ attached (length σ) nodes
  ∧ length (append σ self nodes) = length σ + length (wrapped nodes)
  ∧ (∀ i, base ≤ i → i < length σ → append σ self nodes !! i = σ !! i)
  ∧ (∀ i s, wrapped nodes !! i = Some s →
       append σ self nodes !! (length σ + i) = Some (wrapped_obj self s)).
Proof.
  induction nodes as [|a rest IH]; intros σ self base Hinv Hself Hbase Hb Hun.
  - simpl. split_and!; [done|by rewrite app_nil_r|lia|done|done].
  - apply list.Forall_cons in Hb as [Ha Hb].
    apply list.Forall_cons in Hun as [Hua Hun].
    destruct a as [|s|node]; simpl.
    + by apply (IH σ self base).
    + set (σ0 := σ ++ [fresh_obj s None]).
      set (σ1 := attach σ0 self (length σ)).
      assert (Hlen0 : length σ0 = S (length σ)).
      { unfold σ0. rewrite length_app. simpl. lia. }
      assert (Hlen1 : length σ1 = S (length σ)).
      { unfold σ1. by rewrite attach_length. }
      assert (Hinv0 : parent_inv σ0) by by apply parent_inv_alloc.
      assert (Hinv1 : parent_inv σ1).
      { apply parent_inv_attach; [done| |lia|lia].
        apply unattached_alloc; [done|]. by apply unattached_fresh. }
      assert (Hun1 : Forall (unattached σ1 self) rest).
      { eapply list.Forall_impl; [exact Hun|]. intros a Ha'.
        by apply unattached_attach, unattached_alloc. }
      destruct (IH σ1 self base Hinv1 Hself ltac:(lia) Hb Hun1)
        as (IH1 & IH2 & IH3 & IH4 & IH5).
      split_and!.
      * done.
      * rewrite IH2, Hlen1. unfold σ1.
        rewrite attach_children_self by lia.
        rewrite <-(assoc_L (++)). simpl. f_equal.
        unfold children_of, σ0. by rewrite lookup_app_l by lia.
      * rewrite IH3, Hlen1. simpl. lia.
      * intros i Hi1 Hi2. rewrite IH4 by lia. unfold σ1.
        rewrite attach_lookup_other by lia. unfold σ0.
        by rewrite lookup_app_l by lia.
      * intros [|i] s' Hs'; simpl in Hs'.
        -- injection Hs' as <-. rewrite Nat.add_0_r, IH4 by lia.
           unfold σ1. rewrite attach_lookup. unfold σ0.
           rewrite list_lookup_middle by done. simpl. f_equal.
           unfold attached_obj, wrapped_obj. simpl.
           rewrite decide_True by done. by rewrite decide_False by lia.
        -- replace (length σ + S i) with (length σ1 + i) by lia.
           by apply IH5.
    + simpl in Ha.
      set (σ1 := attach σ self node).
      assert (Hlen1 : length σ1 = length σ).
      { unfold σ1. by rewrite attach_length. }
      assert (Hinv1 : parent_inv σ1).
      { apply parent_inv_attach; [done|done|lia|lia]. }
      assert (Hun1 : Forall (unattached σ1 self) rest).
      { eapply list.Forall_impl; [exact Hun|]. intros a Ha'.
        by apply unattached_attach. }
      destruct (IH σ1 self base Hinv1 Hself ltac:(lia) Hb Hun1)
        as (IH1 & IH2 & IH3 & IH4 & IH5).
      split_and!.
      * done.
      * rewrite IH2, Hlen1. unfold σ1.
        rewrite attach_children_self by lia.
        by rewrite <-(assoc_L (++)).
      * rewrite IH3, Hlen1. lia.
      * intros i Hi1 Hi2. rewrite IH4 by lia. unfold σ1.
        by rewrite attach_lookup_other by lia.
      * intros i s' Hs'. rewrite <-Hlen1. by apply IH5.
Qed.

Lemma Node_init_store σ name children layer :
  (Node_init σ name children layer).1
  = append (σ ++ [fresh_obj name layer]) (length σ) (default [] children).
Proof. by destruct children as [[|a rest]|]. Qed.

Lemma live_refs_below σ nodes :
  Forall (live σ) nodes → Forall (refs_below (length σ)) nodes.
Proof. intros Hl. eapply list.Forall_impl; [exact Hl|]. by intros [| |c]. Qed.

Lemma built_parent_inv σ : built σ → parent_inv σ.
Proof.
  induction 1 as [|σ name children layer _ IH Hlive Hun
                  |σ self nodes _ IH Hself Hlive Hun].
  - intros n o c Hn. by rewrite lookup_nil in Hn.
  - rewrite Node_init_store.
    apply (append_spec _ _ _ (S (length σ))).
    + by apply parent_inv_alloc.
    + lia.
    + rewrite length_app. simpl. lia.
    + eapply list.Forall_impl; [exact Hlive|]. intros [| |c]; simpl; lia.
    + eapply list.Forall_impl; [exact Hun|]. intros a Ha.
      by apply unattached_alloc.
  - apply (append_spec _ _ _ (length σ)); [done|done|done| |done].
    by apply live_refs_below.
Qed.
End HeapProofs.

Lemma attached_length (next : nat) (nodes : list Arg) :
  length (attached next nodes)
  = length (filter (λ a, not_None a = true) nodes).
Proof.
  revert next. induction nodes as [|[|s|node] rest IH]; intros next; [done|..].
  - rewrite filter_cons_False by done. apply IH.
  - rewrite filter_cons_True by done. simpl. by rewrite IH.
  - rewrite filter_cons_True by done. simpl. by rewrite IH.
Qed.

(** C9, as amended: in every store built by [Node.__init__] and
    [Node.append] where a node is handed over only while no other node
    lists it as a child, each child listed by a node has that node as its
    parent, and a further such call of [append] keeps it so; [append]
    skips the [None] arguments, makes a new object named [s] for every
    string [s], and adds the references of the remaining arguments to the
    end of [self.children] in the order given, so the list grows by the
    number of arguments that are not [None].  ([children] is a list in
    every object by construction.) *)
Theorem append_keeps_parent_invariant (σ : store) :
  built σ →
  parent_inv σ
  ∧ ∀ (self : ref) (nodes : list Arg),
      self < length σ →
      Forall (live σ) nodes →
      Forall (unattached σ self) nodes →
      parent_inv (append σ self nodes)
      ∧ children_of (append σ self nodes) self
        = children_of σ self ++ attached (length σ) nodes
      ∧ length (children_of (append σ self nodes) self)
        = length (children_of σ self)
          + length (filter (λ a, not_None a = true) nodes)
      ∧ drop (length σ) (append σ self nodes)
        = wrapped_obj self <$> wrapped nodes.
Proof.
  intros Hbuilt.
  pose proof (built_parent_inv σ Hbuilt) as Hinv.
  split; [done|]. intros self nodes Hself Hlive Hun.
  destruct (append_spec nodes σ self (length σ) Hinv Hself (le_n _)
              (live_refs_below σ nodes Hlive) Hun)
    as (H1 & H2 & H3 & _ & H5).
  split_and!; [done|done| |].
  - by rewrite H2, length_app, attached_length.
  - apply list_eq. intros i. rewrite lookup_drop, list_lookup_fmap.
    destruct (wrapped nodes !! i) as [s|] eqn:Hi.
    + by rewrite (H5 i s Hi).
    + apply lookup_ge_None. rewrite H3.
      apply lookup_ge_None in Hi. lia.
Qed.

Lemma append_keeps_parent_invariant_witness :
  built root_store
  ∧ parent_inv root_store
  ∧ children_of (append root_store 0 [ArgStr "a"; ArgNone; ArgStr "b"]) 0
    = [1; 2].
Proof.
  assert (Hbuilt : built root_store).
  { apply (built_init [] "root" None None); [constructor|constructor..]. }
  assert (Hself : 0 < length root_store) by (vm_compute; lia).
  assert (Hlive : Forall (live root_store)
                    [ArgStr "a"; ArgNone; ArgStr "b"])
    by (repeat constructor).
  assert (Hun : Forall (unattached root_store 0)
                  [ArgStr "a"; ArgNone; ArgStr "b"])
    by (repeat constructor).
  destruct (append_keeps_parent_invariant root_store Hbuilt) as [Hinv Happ].
  split_and!; [exact Hbuilt|exact Hinv|].
  exact (proj1 (proj2 (Happ 0 _ Hself Hlive Hun))).
Defined.

(** The invariant as first stated fails once a node is handed to two
    parents: [a = Node("a"); p1 = Node("p1", [a]); p2 = Node("p2", [a])]
    leaves [a] among the children of [p1] with [p2] as its parent. *)
Lemma parent_invariant_counterexample :
  constructed two_parents_store ∧ ¬ parent_inv two_parents_store.
Proof.
  split.
  - unfold two_parents_store.
    apply constructed_init; [apply constructed_init;
      [apply constructed_init; [constructor|constructor]|]|].
    + repeat constructor.
    + repeat constructor.
  - intros Hinv.
    destruct (Hinv 1 {| obj_name := "p1"; obj_layer := None;
                        obj_parent := None; obj_children := [0] |} 0)
      as (oc & Hoc & Hp).
    + reflexivity.
    + by left.
    + vm_compute in Hoc. injection Hoc as <-. discriminate Hp.
Qed.

(** ** The last metadata file *)

Lemma Sorted_weaken {A} (R R' : relation A) (l : list A) :
  (∀ a b, R a b → R' a b) → Sorted R l → Sorted R' l.
Proof.
  intros HR. induction 1 as [|a l Hs IH Hhd]; constructor; [done|].
  destruct Hhd; constructor; auto.
Qed.

Lemma flip_tuple_le_total : Total (flip tuple_le).
Proof.
  intros [t1 f1] [t2 f2]. unfold flip, tuple_le. simpl.
  destruct (Z.lt_trichotomy t1 t2) as [?|[->|?]];
    [right; by left| |left; by left].
  destruct (String.leb_total f1 f2); [right|left]; by right.
Qed.

(** The first element of the reversed sort carries the greatest
    timestamp. *)
Lemma head_sorted_reverse_max (matched : list (Z * string)) :
  matched ≠ [] →
  ∃ ts f, head (sorted_reverse tuple_le matched) = Some (ts, f)
    ∧ (ts, f) ∈ matched
    ∧ ∀ ts' f', (ts', f') ∈ matched → (ts' ≤ ts)%Z.
Proof.
  intros Hne. unfold sorted_reverse.
  pose proof (merge_sort_Permutation (flip tuple_le) matched) as Hperm.
  pose proof (Sorted_merge_sort (flip tuple_le)
                (Total0 := flip_tuple_le_total) matched) as Hsorted.
  destruct (merge_sort (flip tuple_le) matched) as [|[ts f] rest] eqn:Hm.
  - symmetry in Hperm. by apply Permutation_nil_r in Hperm.
  - exists ts, f. split_and!; [done|rewrite <-Hperm; left|].
    assert (StronglySorted (λ a b : Z * string, (b.1 ≤ a.1)%Z)
              ((ts, f) :: rest)) as Hss.
    { apply Sorted_StronglySorted; [intros a b c; simpl; lia|].
      eapply Sorted_weaken; [|exact Hsorted].
      intros a b [?|[? _]]; simpl in *; lia. }
    apply StronglySorted_inv in Hss as [_ Hall].
    intros ts' f' Hin. rewrite <-Hperm in Hin.
    apply elem_of_cons in Hin as [[= -> ->]|Hin]; [lia|].
    rewrite list.Forall_forall in Hall. by apply (Hall _ Hin).
Qed.

(** The files the loop of [_last_metadata] retains. *)
Lemma matched_metadata_files_elem `{JsonModule} (base : string)
    (dir : Directory) (ts : Z) (f : string) :
  (ts, f) ∈ matched_metadata_files base dir
  ↔ ∃ content digits,
      (f, content) ∈ dir
      ∧ endswith f ".meta" = true
      ∧ metadata_pattern_match base f = Some digits
      ∧ ts = int_of_digits digits.
Proof.
  unfold matched_metadata_files. rewrite list_elem_of_omap. split.
  - intros ([f0 content] & Hin & Hm). simpl in Hm.
    destruct (endswith f0 ".meta") eqn:Hend; [|done].
    destruct (metadata_pattern_match base f0) as [digits|] eqn:Hpat; [|done].
    injection Hm as <- <-. by exists content, digits.
  - intros (content & digits & Hin & Hend & Hpat & ->).
    exists (f, content). split; [done|]. simpl. by rewrite Hend, Hpat.
Qed.

(** What [_last_metadata] does on every input: without a retained file it
    returns [None]; otherwise it takes a retained file of greatest
    timestamp, returns [None] if no file exists at that name, and the
    loaded content otherwise. *)
Lemma last_metadata_choice `{JsonModule} (fileName : string) (dir : Directory) :
  let matched :=
    matched_metadata_files (basename (splitext_root fileName)) dir in
  (matched = [] → _last_metadata fileName dir = Some None)
  ∧ (matched ≠ [] →
     ∃ ts f, (ts, f) ∈ matched
       ∧ (∀ ts' f', (ts', f') ∈ matched → (ts' ≤ ts)%Z)
       ∧ _last_metadata fileName dir
         = match dir_entry dir f with
           | Some (Some text) => Some <$> json_load text
           | _ => Some None
           end).
Proof.
  intros matched. unfold _last_metadata. fold matched. split.
  - by intros ->.
  - intros Hne.
    destruct (head_sorted_reverse_max matched Hne) as (ts & f & Hh & Hin & Hmax).
    exists ts, f. split_and!; [done|done|].
    destruct matched as [|m ms]; [done|]. by rewrite Hh.
Qed.

(** C8: evaluation at a directory where the claim and the code part.  The
    project is [/home/user/proj.qgs]; its directory holds
    [proj_1000000000.meta] and [proj_2000000000.meta.bak.meta].  The second
    name is not the base name, an underscore, ten digits and [.meta], yet
    the pattern, anchored at the start only, matches it and the name ends
    in [.meta]; having the greater timestamp it is the file that is
    loaded.  Alone in the directory it is loaded as well. *)
Theorem last_metadata_loads_prefix_match `{JsonModule} :
  metadata_pattern_match "proj" "proj_2000000000.meta.bak.meta"
  = Some "2000000000"
  ∧ _last_metadata "/home/user/proj.qgs"
      [("proj_1000000000.meta", Some "{}");
       ("proj_2000000000.meta.bak.meta", Some "[]")]
    = Some <$> json_load "[]"
  ∧ _last_metadata "/home/user/proj.qgs"
      [("proj_2000000000.meta.bak.meta", Some "[]")]
    = Some <$> json_load "[]".
Proof. split_and!; reflexivity. Qed.

(** * Further properties of the code *)

(** ** [Node.cascade] *)

Lemma cascade_loop_postorder {S : Type} (fn : Node → S → S) (cs : list Node) :
  Forall (λ c, ∀ st, cascade fn c st
                     = foldl (λ s n, fn n s) st (postorder c)) cs →
  ∀ st,
    (fix loop (cs : list Node) (st : S) : S :=
       match cs with
       | [] => st
       | child :: rest => loop rest (cascade fn child st)
       end) cs st
    = foldl (λ s n, fn n s) st (concat (map postorder cs)).
Proof.
  induction 1 as [|c cs Hc _ IH]; intros st; [done|].
  cbn [map concat]. by rewrite foldl_app, <-Hc, IH.
Qed.

Lemma cascade_foldl_postorder {S : Type} (fn : Node → S → S) (self : Node)
    (st : S) :
  cascade fn self st = foldl (λ s n, fn n s) st (postorder self).
Proof.
  revert st. induction self as [s l cs IH] using Node_tree_ind. intros st.
  cbn [cascade postorder]. rewrite foldl_app. simpl. f_equal.
  by apply cascade_loop_postorder.
Qed.

Lemma postorder_preorder_Permutation (n : Node) : postorder n ≡ₚ preorder n.
Proof.
  induction n as [s l cs IH] using Node_tree_ind. cbn [postorder preorder].
  rewrite Permutation_app_comm. simpl. constructor.
  induction IH as [|c cs Hc _ IHcs]; [done|].
  cbn [map concat]. by rewrite Hc, IHcs.
Qed.

(** X1: [cascade] runs the callback once on every node of the subtree of
    the receiver, in post-order: the result is the callback folded over
    the post-order list, which ends with the receiver and holds the same
    nodes as the pre-order list searched by [find]. *)
Theorem cascade_visits_postorder {S : Type} (fn : Node → S → S) (self : Node)
    (st : S) :
  cascade fn self st = foldl (λ s n, fn n s) st (postorder self)
  ∧ postorder self ≡ₚ preorder self
  ∧ list.last (postorder self) = Some self.
Proof.
  split_and!.
  - apply cascade_foldl_postorder.
  - apply postorder_preorder_Permutation.
  - destruct self as [s l cs]. cbn [postorder]. apply last_snoc.
Qed.

(** ** Unit codes, conversions and visible resolutions *)

Lemma map_units_None_iff (self : Plugin) :
  map_units self = None ↔ canvas_map_units self ∉ [0; 1; 2; 3; 7]%Z.
Proof.
  unfold map_units. generalize (canvas_map_units self). intros c. split.
  - intros Hn Hin. rewrite !elem_of_cons, elem_of_nil in Hin.
    destruct Hin as [->|[->|[->|[->|[->|[]]]]]]; discriminate Hn.
  - intros Hnotin. rewrite !not_elem_of_cons in Hnotin.
    destruct Hnotin as (? & ? & ? & ? & ? & _).
    destruct c as [|p|p]; [done| |done].
    destruct p as [[p|p|]|[p|p|]|]; try done; destruct p; done.
Qed.

(** X2: a unit code outside the keys 0, 1, 2, 3 and 7 of [map_units]
    makes the lookup raise, and with it both conversions, the filter of a
    layer with scale-based visibility and [project_layers_resolutions],
    whatever the layers, the stored scales and the helpers are. *)
Theorem unknown_unit_code_raises `{Imports} (self : Plugin) :
  canvas_map_units self ∉ [0; 1; 2; 3; 7]%Z →
  map_units self = None
  ∧ (∀ scales, scales_to_resolutions self scales = None)
  ∧ (∀ resolutions, resolutions_to_scales self resolutions = None)
  ∧ (∀ resolutions layer, hasScaleBasedVisibility layer = true →
       filter_visible_resolutions self resolutions layer = None)
  ∧ project_layers_resolutions self = None.
Proof.
  intros Hcode.
  pose proof (proj2 (map_units_None_iff self) Hcode) as Hu.
  split_and!; [done| | | |].
  - intros scales. unfold scales_to_resolutions. by rewrite Hu.
  - intros rs. unfold resolutions_to_scales. by rewrite Hu.
  - intros rs layer Hvis. unfold filter_visible_resolutions, scales_to_resolutions.
    by rewrite Hvis, Hu.
  - unfold project_layers_resolutions, resolutions_to_scales. rewrite Hu.
    by destruct (wmsc_resolutions self).
Qed.

Lemma unknown_unit_code_raises_witness :
  (canvas_map_units sample_plugin_unit4 ∉ [0; 1; 2; 3; 7]%Z)
  ∧ @project_layers_resolutions sample_imports sample_plugin_unit4 = None.
Proof.
  assert (Hcode : canvas_map_units sample_plugin_unit4 ∉ [0; 1; 2; 3; 7]%Z).
  { apply (bool_decide_unpack _). vm_compute. exact I. }
  split; [exact Hcode|].
  exact (proj2 (proj2 (proj2 (proj2
           (@unknown_unit_code_raises sample_imports _ Hcode))))).
Defined.

(** X3: [wmsc_layer_resolutions] returns [None] exactly when the provider
    has no resolutions (the property is [None] or empty); every list it
    returns is in descending order and is a rearrangement of the visible
    ones among the provider's resolutions turned into decimals, repeated
    values kept. *)
Theorem wmsc_layer_resolutions_descending `{Imports} (self : Plugin)
    (layer : Layer) :
  (wmsc_layer_resolutions self layer = Some None
   ↔ provider_resolutions layer = None ∨ provider_resolutions layer = Some [])
  ∧ ∀ rs, wmsc_layer_resolutions self layer = Some (Some rs) →
      StronglySorted (λ a b, (b ≤ a)%Qc) rs
      ∧ ∃ raw decimals visible,
          provider_resolutions layer = Some raw
          ∧ to_decimal_array raw = Some decimals
          ∧ filter_visible_resolutions self decimals layer = Some visible
          ∧ rs ≡ₚ visible.
Proof.
  unfold wmsc_layer_resolutions.
  destruct (provider_resolutions layer) as [[|v vs]|] eqn:Hraw.
  - split; [split; [by right|done]|done].
  - destruct (to_decimal_array (v :: vs)) as [ds|] eqn:Hds; simpl.
    2:{ split; [|done]. split; [done|]. by intros [|]. }
    assert ((if hasScaleBasedVisibility layer
             then filter_visible_resolutions self ds layer else Some ds)
            = filter_visible_resolutions self ds layer) as ->.
    { unfold filter_visible_resolutions.
      by destruct (hasScaleBasedVisibility layer). }
    destruct (filter_visible_resolutions self ds layer) as [vis|] eqn:Hvis;
      simpl.
    2:{ split; [|done]. split; [done|]. by intros [|]. }
    split.
    { split; [by destruct vis|by intros [|]]. }
    intros rs Hrs.
    assert (rs = sorted_reverse Qcle vis) as ->.
    { destruct vis; [by injection Hrs as <-|by injection Hrs as <-]. }
    split.
    + apply (StronglySorted_merge_sort _ (Total0 := flip_Qcle_total)).
    + exists (v :: vs), ds, vis. split_and!; [done..|].
      apply merge_sort_Permutation.
  - split; [split; [by left|done]|done].
Qed.

Lemma filter_idempotent {A} (P : A → Prop) `{!∀ x, Decision (P x)}
    (l : list A) :
  filter P (filter P l) = filter P l.
Proof.
  induction l as [|x l IH]; [done|].
  destruct (decide (P x)).
  - rewrite !filter_cons_True by done. by rewrite IH.
  - by rewrite !filter_cons_False by done.
Qed.

(** X4: what [filter_visible_resolutions] returns is a sublist of its
    input, and filtering the result again for the same layer changes
    nothing. *)
Theorem filter_visible_resolutions_idempotent `{Imports} (self : Plugin)
    (resolutions visible : list Decimal) (layer : Layer) :
  filter_visible_resolutions self resolutions layer = Some visible →
  visible `sublist_of` resolutions
  ∧ filter_visible_resolutions self visible layer = Some visible.
Proof.
  unfold filter_visible_resolutions.
  destruct (hasScaleBasedVisibility layer).
  - destruct (scales_to_resolutions self _) as [[|a [|b [|c rest]]]|];
      simpl; try done.
    intros [= <-]. split; [apply sublist_filter|].
    by rewrite filter_idempotent.
  - by intros [= <-].
Qed.

Lemma filter_visible_resolutions_idempotent_witness :
  @filter_visible_resolutions sample_imports sample_plugin
    [Q2Qc 1; Q2Qc 2] sample_wms_layer
  = Some [Q2Qc 1; Q2Qc 2].
Proof.
  assert (Hvis : @filter_visible_resolutions sample_imports sample_plugin
                   [Q2Qc 1; Q2Qc 2; Q2Qc 10] sample_wms_layer
                 = Some [Q2Qc 1; Q2Qc 2]).
  { apply (bool_decide_unpack _). vm_compute. exact I. }
  exact (proj2 (@filter_visible_resolutions_idempotent sample_imports
                  sample_plugin _ _ _ Hvis)).
Defined.

(** X5: when the layer's maximum scale converts to a resolution that is
    not above the one its minimum scale converts to, the window
    [min_res <= res < max_res] is empty and no input resolution is
    visible. *)
Theorem filter_visible_resolutions_empty_window `{Imports} (self : Plugin)
    (resolutions : list Decimal) (layer : Layer) (max_res min_res : Decimal) :
  hasScaleBasedVisibility layer = true →
  scales_to_resolutions self
    [FloatScale (maximumScale layer); FloatScale (minimumScale layer)]
  = Some [max_res; min_res] →
  (max_res ≤ min_res)%Qc →
  filter_visible_resolutions self resolutions layer = Some [].
Proof.
  intros Hvis Hconv Hle. unfold filter_visible_resolutions.
  rewrite Hvis, Hconv. simpl. f_equal.
  induction resolutions as [|r rs IH]; [done|].
  rewrite filter_cons_False; [done|].
  intros [Hmin Hmax]. apply (Qclt_not_le r max_res); [done|].
  by apply Qcle_trans with min_res.
Qed.

Lemma filter_visible_resolutions_empty_window_witness :
  @filter_visible_resolutions sample_imports sample_plugin
    [Q2Qc 1; Q2Qc 2; Q2Qc 10] sample_inverted_layer
  = Some [].
Proof.
  apply (@filter_visible_resolutions_empty_window sample_imports sample_plugin
           _ sample_inverted_layer
           (Q2Qc (6250 # 11811)) (Q2Qc (62500 # 11811))).
  - reflexivity.
  - apply (bool_decide_unpack _). vm_compute. exact I.
  - apply (bool_decide_unpack _). vm_compute. exact I.
Defined.

(** ** Projects without sources of resolutions *)

Lemma base_layers_empty (self : Plugin) :
  Forall (λ l, is_base_layer_for_publish l = false) (project_map_layers self) →
  base_layers self = ∅.
Proof.
  intros Hall. unfold base_layers.
  replace (filter _ (project_map_layers self)) with (@nil Layer); [done|].
  symmetry. induction Hall as [|l ls Hl _ IH]; [done|].
  rewrite filter_cons_False by congruence. exact IH.
Qed.

(** X6: a project without base layers and without stored scales (no entry,
    or an empty list) has no tile resolutions: the result is the empty
    list, provided the unit code is known and the helper converts the
    empty list of resolutions. *)
Theorem project_layers_resolutions_no_sources `{Imports} (self : Plugin)
    (units : string) :
  Forall (λ l, is_base_layer_for_publish l = false) (project_map_layers self) →
  project_scales_list self = None ∨ project_scales_list self = Some [] →
  map_units self = Some units →
  is_Some (utils_resolutions_to_scales [] units) →
  project_layers_resolutions self = Some [].
Proof.
  intros Hbase Hscales Hu [wls Hwls].
  unfold project_layers_resolutions, wmsc_resolutions.
  rewrite (base_layers_empty self Hbase), map_to_list_empty. simpl.
  rewrite elements_empty. unfold resolutions_to_scales. rewrite Hu. simpl.
  rewrite Hwls. simpl. unfold readListEntry.
  destruct Hscales as [-> | ->]; simpl; by rewrite elements_empty.
Qed.

Lemma project_layers_resolutions_no_sources_witness :
  @project_layers_resolutions sample_imports sample_plugin_empty = Some [].
Proof.
  apply (@project_layers_resolutions_no_sources sample_imports
           sample_plugin_empty "meters").
  - repeat constructor.
  - by left.
  - reflexivity.
  - by eexists.
Defined.

(** ** The mirrored trees *)

(** X7: [get_project_base_layers] returns the mirror of the host tree
    restricted to the base layers: a node is returned exactly when it
    mirrors the tree, [None] exactly when the tree has no base layer, and
    the leaves of a returned tree are, in order, the base layers of the
    tree, each named by its id and carrying the layer. *)
Theorem get_project_base_layers_mirrors (root_node : LayerTreeNode) :
  (∀ n, BaseLayers.get_project_base_layers root_node = Some n
        ↔ mirrors is_base_layer_for_publish root_node n)
  ∧ (BaseLayers.get_project_base_layers root_node = None
     ↔ Forall (λ l, is_base_layer_for_publish l = false)
              (tree_layers root_node))
  ∧ (∀ n, BaseLayers.get_project_base_layers root_node = Some n →
       leaf_nodes n
       = (λ l, mkNode (layer_id l) (Some l) [])
         <$> filter (λ l, is_base_layer_for_publish l = true)
                    (tree_layers root_node)).
Proof.
  unfold BaseLayers.get_project_base_layers.
  rewrite base_overlays_tree_mirror.
  apply (mirror_tree_ok is_base_layer_for_publish root_node).
Qed.

Lemma omap_elem_of_Some {A B} (f : A → option B) (l : list A) (y : B) :
  y ∈ omap f l → ∃ x, x ∈ l ∧ f x = Some y.
Proof. apply list_elem_of_omap. Qed.

Lemma mirror_tree_nodes_shape (p : Layer → bool) (t : LayerTreeNode) (n : Node) :
  mirror_tree p t = Some n → Forall leaf_or_group (preorder n).
Proof.
  revert n. induction t as [l|g cs IH] using LayerTreeNode_tree_ind; intros n.
  - simpl. destruct (p l); [|done]. intros [= <-]. simpl.
    constructor; [|constructor]. left. by split.
  - rewrite mirror_tree_group.
    destruct (omap (mirror_tree p) cs) as [|n1 ns] eqn:Hcs; [done|].
    intros [= <-]. cbn [preorder]. constructor; [by right|].
    apply Forall_concat, Forall_fmap, list.Forall_forall.
    intros m Hm. rewrite <-Hcs in Hm.
    apply omap_elem_of_Some in Hm as (c & Hc & Hcm).
    rewrite list.Forall_forall in IH. by apply (IH c Hc m).
Qed.

(** X8: in a tree returned by [get_project_layers] or by
    [get_project_base_layers], every node is either a leaf that carries a
    layer or a group that has at least one child and carries none; so a
    node has a layer exactly when it has no children. *)
Theorem returned_tree_nodes_shape (root_node : LayerTreeNode) (n m : Node) :
  OverlayLayers.get_project_layers root_node = Some n
  ∨ BaseLayers.get_project_base_layers root_node = Some n →
  m ∈ preorder n →
  (children m = [] ↔ is_Some (layer m))
  ∧ (children m ≠ [] ↔ layer m = None).
Proof.
  intros Hret Hm.
  assert (Forall leaf_or_group (preorder n)) as Hall.
  { destruct Hret as [Hret|Hret].
    - unfold OverlayLayers.get_project_layers in Hret.
      rewrite overlay_overlays_tree_mirror in Hret.
      by eapply mirror_tree_nodes_shape.
    - unfold BaseLayers.get_project_base_layers in Hret.
      rewrite base_overlays_tree_mirror in Hret.
      by eapply mirror_tree_nodes_shape. }
  rewrite list.Forall_forall in Hall.
  destruct (Hall m Hm) as [[Hc Hl]|[Hc Hl]]; split; split; intros Hx.
  - done.
  - done.
  - done.
  - rewrite Hx in Hl. by apply is_Some_None in Hl.
  - done.
  - rewrite Hl in Hx. by apply is_Some_None in Hx.
  - done.
  - done.
Qed.

Lemma returned_tree_nodes_shape_witness :
  (children sample_overlay_tree ≠ [] ↔ layer sample_overlay_tree = None).
Proof.
  assert (Hret : OverlayLayers.get_project_layers sample_tree
                 = Some sample_overlay_tree) by reflexivity.
  assert (Hm : sample_overlay_tree ∈ preorder sample_overlay_tree) by left.
  exact (proj2 (returned_tree_nodes_shape sample_tree _ _
                  (or_introl Hret) Hm)).
Defined.

Lemma elem_of_concat_map {A B} (f : A → list B) (l : list A) (y : B) :
  y ∈ concat (map f l) ↔ ∃ x, x ∈ l ∧ y ∈ f x.
Proof.
  induction l as [|a l IH]; simpl.
  - split; [by intros ?%elem_of_nil|by intros (? & ?%elem_of_nil & _)].
  - rewrite elem_of_app, IH. split.
    + intros [?|(x & ? & ?)]; [exists a; split; [left|done]|].
      exists x. split; [by right|done].
    + intros (x & [->|?]%elem_of_cons & ?); [by left|right; by exists x].
Qed.

Lemma leaf_nodes_preorder (n m : Node) : m ∈ leaf_nodes n → m ∈ preorder n.
Proof.
  revert m. induction n as [s l cs IH] using Node_tree_ind. intros m.
  destruct cs as [|c cs].
  - simpl. intros ->%list_elem_of_singleton. left.
  - change (leaf_nodes (mkNode s l (c :: cs)))
      with (concat (map leaf_nodes (c :: cs))).
    cbn [preorder]. rewrite elem_of_concat_map. intros (x & Hx & Hm).
    right. apply elem_of_concat_map. exists x. split; [done|].
    rewrite list.Forall_forall in IH. by apply IH.
Qed.

(** The nodes of a mirrored tree are leaves of qualifying layers of the
    host tree or carry the name of one of its groups. *)
Lemma mirror_tree_preorder_nodes (p : Layer → bool) (t : LayerTreeNode)
    (n m : Node) :
  mirror_tree p t = Some n → m ∈ preorder n →
  (∃ l, l ∈ tree_layers t ∧ p l = true ∧ m = mkNode (layer_id l) (Some l) [])
  ∨ name m ∈ tree_group_names t.
Proof.
  revert n m. induction t as [l|g cs IH] using LayerTreeNode_tree_ind;
    intros n m.
  - simpl. destruct (p l) eqn:Hl; [|done]. intros [= <-]. simpl.
    intros ->%list_elem_of_singleton. left. exists l.
    split_and!; [left|done|done].
  - rewrite mirror_tree_group.
    destruct (omap (mirror_tree p) cs) as [|n1 ns] eqn:Hcs; [done|].
    intros [= <-]. cbn [preorder tree_layers tree_group_names].
    intros [->|Hm]%elem_of_cons; [right; left|].
    apply elem_of_concat_map in Hm as (child & Hchild & Hm).
    rewrite <-Hcs in Hchild.
    apply list_elem_of_omap in Hchild as (c & Hc & Hcm).
    rewrite list.Forall_forall in IH.
    destruct (IH c Hc child m Hcm Hm) as [(l & Hl & Hp & ->)|Hname].
    + left. exists l. split_and!; [|done|done].
      apply elem_of_concat_map. by exists c.
    + right. right. apply elem_of_concat_map. by exists c.
Qed.

(** X9: in the tree returned by [get_project_layers], [find] with the id
    of an overlay layer of the host tree returns the leaf that carries this
    layer, provided no other layer of the tree has the same id and no
    group is named like it. *)
Theorem find_published_layer (root_node : LayerTreeNode) (n : Node)
    (l : Layer) :
  OverlayLayers.get_project_layers root_node = Some n →
  l ∈ tree_layers root_node →
  is_overlay_layer_for_publish l = true →
  (∀ l', l' ∈ tree_layers root_node → layer_id l' = layer_id l → l' = l) →
  layer_id l ∉ tree_group_names root_node →
  find n (layer_id l) = Some (mkNode (layer_id l) (Some l) []).
Proof.
  intros Hret Hl Hp Huniq Hgroup.
  unfold OverlayLayers.get_project_layers in Hret.
  rewrite overlay_overlays_tree_mirror in Hret.
  destruct (mirror_tree_ok is_overlay_layer_for_publish root_node)
    as (_ & _ & Hleaves).
  assert (mkNode (layer_id l) (Some l) [] ∈ preorder n) as Hin.
  { apply leaf_nodes_preorder. rewrite (Hleaves n Hret).
    apply list_elem_of_fmap. exists l. split; [done|].
    by apply list_elem_of_filter. }
  rewrite find_head_preorder.
  destruct (head (filter (λ m, name m = layer_id l) (preorder n)))
    as [r|] eqn:Hh.
  - apply head_filter_Some in Hh as (before & after & Hpre & Hname & _).
    assert (r ∈ preorder n) as Hr.
    { rewrite Hpre. apply elem_of_app. right. left. }
    destruct (mirror_tree_preorder_nodes _ _ _ _ Hret Hr)
      as [(l' & Hl' & _ & ->)|Hg].
    + simpl in Hname. by rewrite (Huniq l' Hl' Hname).
    + rewrite Hname in Hg. by destruct Hgroup.
  - exfalso.
    by apply (proj1 (head_filter_None _ _) Hh _ Hin).
Qed.

Lemma find_published_layer_witness :
  find sample_overlay_tree "roads_2"
  = Some (mkNode "roads_2" (Some sample_vector_layer) []).
Proof.
  apply (find_published_layer sample_tree sample_overlay_tree
           sample_vector_layer).
  - reflexivity.
  - left.
  - reflexivity.
  - intros l' Hl' Hid. simpl in Hl'.
    apply elem_of_cons in Hl' as [->|Hl']; [done|].
    apply list_elem_of_singleton in Hl'. by subst l'.
  - apply (bool_decide_unpack _). vm_compute. exact I.
Defined.

Lemma returned_leaves_mirror_tree (p : Layer → bool) (t : LayerTreeNode) :
  returned_leaves (mirror_tree p t)
  = (λ l, mkNode (layer_id l) (Some l) [])
    <$> filter (λ l, p l = true) (tree_layers t).
Proof.
  destruct (mirror_tree_ok p t) as (_ & Hnone & Hsome).
  destruct (mirror_tree p t) as [n|] eqn:Hn; simpl.
  - by apply Hsome.
  - by rewrite filter_drops_nil by (by apply Hnone).
Qed.

Lemma overlay_base_exclusive (l : Layer) :
  is_overlay_layer_for_publish l = true →
  is_base_layer_for_publish l = true → False.
Proof.
  unfold is_overlay_layer_for_publish, is_base_layer_for_publish.
  rewrite orb_true_iff, !andb_true_iff, negb_true_iff,
    bool_decide_eq_false, !bool_decide_eq_true.
  intros [Hv|[_ Hp]] [Hr Hw]; congruence.
Qed.

Lemma overlay_or_base_iff (l : Layer) :
  is_overlay_layer_for_publish l = true ∨ is_base_layer_for_publish l = true
  ↔ layer_type l = VectorLayer ∨ layer_type l = RasterLayer.
Proof.
  unfold is_overlay_layer_for_publish, is_base_layer_for_publish.
  rewrite orb_true_iff, !andb_true_iff, negb_true_iff,
    bool_decide_eq_false, !bool_decide_eq_true.
  destruct (decide (providerType l = "wms")); tauto.
Qed.

(** X10: the trees returned by [get_project_layers] and by
    [get_project_base_layers] for one host tree have no leaf in common,
    and a layer of the host tree is carried by a leaf of one of them
    exactly when it is a vector or a raster layer. *)
Theorem returned_trees_split_layers (root_node : LayerTreeNode) :
  (∀ m, m ∈ returned_leaves (OverlayLayers.get_project_layers root_node) →
        m ∉ returned_leaves (BaseLayers.get_project_base_layers root_node))
  ∧ ∀ l, l ∈ tree_layers root_node →
      (mkNode (layer_id l) (Some l) []
         ∈ returned_leaves (OverlayLayers.get_project_layers root_node)
       ∨ mkNode (layer_id l) (Some l) []
         ∈ returned_leaves (BaseLayers.get_project_base_layers root_node))
      ↔ layer_type l = VectorLayer ∨ layer_type l = RasterLayer.
Proof.
  unfold OverlayLayers.get_project_layers, BaseLayers.get_project_base_layers.
  rewrite overlay_overlays_tree_mirror, base_overlays_tree_mirror,
    !returned_leaves_mirror_tree.
  split.
  - intros m (l & -> & [Ho _]%list_elem_of_filter)%list_elem_of_fmap
      (l' & [= _ <-] & [Hb _]%list_elem_of_filter)%list_elem_of_fmap.
    by apply (overlay_base_exclusive l).
  - intros l Hl. rewrite <-overlay_or_base_iff, !list_elem_of_fmap.
    split.
    + intros [(l' & [= _ <-] & [Ho _]%list_elem_of_filter)
             |(l' & [= _ <-] & [Hb _]%list_elem_of_filter)]; auto.
    + intros [Ho|Hb]; [left|right]; exists l;
        (split; [done|by apply list_elem_of_filter]).
Qed.

(** ** The metadata files of a project *)

Lemma strip_prefix_app (pre rest : string) :
  strip_prefix pre (pre ++ rest)%string = Some rest.
Proof.
  induction pre as [|a pre IH]; [by destruct rest|].
  simpl. by rewrite Ascii.eqb_refl.
Qed.

Lemma strip_prefix_Some (pre s rest : string) :
  strip_prefix pre s = Some rest ↔ s = (pre ++ rest)%string.
Proof.
  split; [|intros ->; apply strip_prefix_app].
  revert s. induction pre as [|a pre IH]; intros s.
  - destruct s; by intros [= <-].
  - destruct s as [|b s]; [done|]. simpl.
    destruct (Ascii.eqb_spec a b) as [<-|]; [|done].
    intros Hs. by rewrite (IH s Hs).
Qed.

Lemma take_digits_Some (n : nat) (s digits rest : string) :
  take_digits n s = Some (digits, rest)
  ↔ s = (digits ++ rest)%string
    ∧ String.length digits = n ∧ all_digits digits = true.
Proof.
  revert s digits rest. induction n as [|n IH]; intros s digits rest; simpl.
  - split.
    + by intros [= <- <-].
    + intros (-> & Hlen & _). by destruct digits.
  - destruct s as [|c s].
    + split; [done|]. intros (Hs & Hlen & _). by destruct digits.
    + destruct (is_digit c) eqn:Hc.
      * destruct (take_digits n s) as [[ds r]|] eqn:Htake; simpl.
        -- apply IH in Htake as (-> & Hlen & Hall). split.
           ++ intros [= <- <-]. simpl. rewrite Hc, Hall.
              split_and!; [done|by rewrite Hlen|done].
           ++ intros (Hs & Hlen' & Hall').
              destruct digits as [|d digits]; [done|].
              simpl in Hs, Hlen', Hall'. injection Hs as <- Hs.
              apply andb_true_iff in Hall' as [_ Hall'].
              assert (take_digits n (ds ++ r)%string = Some (digits, rest))
                as Htake'.
              { apply IH. split_and!; [done|lia|done]. }
              assert (take_digits n (ds ++ r)%string = Some (ds, r))
                as Htake''.
              { apply IH. by split_and!. }
              rewrite Htake' in Htake''. by injection Htake'' as -> ->.
        -- split; [done|]. intros (Hs & Hlen' & Hall').
           destruct digits as [|d digits]; [done|].
           simpl in Hs, Hlen', Hall'. injection Hs as <- Hs.
           apply andb_true_iff in Hall' as [_ Hall'].
           assert (take_digits n s = Some (digits, rest)) as Htake'.
           { apply IH. split_and!; [done|lia|done]. }
           by rewrite Htake' in Htake.
      * split; [done|]. intros (Hs & Hlen' & Hall').
        destruct digits as [|d digits]; [done|].
        simpl in Hs, Hall'. injection Hs as <- Hs.
        by rewrite Hc in Hall'.
Qed.

(** X11: on a file name of ASCII characters (where the decimal digits
    that [\d] accepts are 0 to 9), the pattern built by [_last_metadata]
    matches exactly when the name is the project's base name, an
    underscore, ten decimal digits and [.meta], followed by any text at
    all; the group is the ten digits. *)
Theorem metadata_pattern_match_iff (base filename timestamp : string) :
  is_ascii_string filename = true →
  metadata_pattern_match base filename = Some timestamp
  ↔ String.length timestamp = 10
    ∧ all_digits timestamp = true
    ∧ ∃ rest, filename
              = (base ++ "_" ++ timestamp ++ ".meta" ++ rest)%string.
Proof.
  intros _. unfold metadata_pattern_match. split.
  - destruct (strip_prefix base filename) as [r1|] eqn:H1;
      cbn -[take_digits strip_prefix]; [|done].
    destruct (strip_prefix "_" r1) as [r2|] eqn:H2;
      cbn -[take_digits strip_prefix]; [|done].
    destruct (take_digits 10 r2) as [[ts r3]|] eqn:H3;
      cbn -[take_digits strip_prefix]; [|done].
    destruct (strip_prefix ".meta" r3) as [r4|] eqn:H4;
      cbn -[take_digits strip_prefix]; [|done].
    intros [= <-].
    apply strip_prefix_Some in H1 as ->. apply strip_prefix_Some in H2 as ->.
    apply take_digits_Some in H3 as (-> & Hlen & Hall).
    apply strip_prefix_Some in H4 as ->.
    split_and!; [done|done|by exists r4].
  - intros (Hlen & Hall & rest & ->).
    rewrite strip_prefix_app. cbn -[take_digits strip_prefix].
    rewrite (strip_prefix_app "_"). cbn -[take_digits strip_prefix].
    assert (take_digits 10 (timestamp ++ ".meta" ++ rest)%string
            = Some (timestamp, (".meta" ++ rest)%string)) as ->.
    { by apply take_digits_Some. }
    cbn -[take_digits strip_prefix].
    by rewrite (strip_prefix_app ".meta").
Qed.

Lemma metadata_pattern_match_iff_witness :
  is_ascii_string "proj_1600000000.meta.bak" = true
  ∧ metadata_pattern_match "proj" "proj_1600000000.meta.bak"
    = Some "1600000000".
Proof.
  split; [reflexivity|].
  apply (proj2 (metadata_pattern_match_iff "proj" "proj_1600000000.meta.bak"
                  "1600000000" eq_refl)).
  split_and!; [reflexivity|reflexivity|by exists ".bak"].
Defined.

(** X12: in a directory whose names are made of ASCII characters,
    [_last_metadata] returns metadata only as [json.load] gave it for the
    text of a retained file that no retained file exceeds in timestamp,
    and without a retained file it returns [None]. *)
Theorem last_metadata_outcomes `{JsonModule} (fileName : string)
    (dir : Directory) :
  Forall (λ entry, is_ascii_string entry.1 = true) dir →
  let matched :=
    matched_metadata_files (basename (splitext_root fileName)) dir in
  (∀ metadata, _last_metadata fileName dir = Some (Some metadata) →
     ∃ ts f text, (ts, f) ∈ matched
       ∧ (∀ ts' f', (ts', f') ∈ matched → (ts' ≤ ts)%Z)
       ∧ dir_entry dir f = Some (Some text)
       ∧ json_load text = Some metadata)
  ∧ (matched = [] → _last_metadata fileName dir = Some None).
Proof.
  intros _ matched.
  destruct (last_metadata_choice fileName dir) as [Hnil Hcons].
  fold matched in Hnil, Hcons.
  destruct (decide (matched = [])) as [Hm|Hm].
  - rewrite (Hnil Hm). by split_and!.
  - destruct (Hcons Hm) as (ts & f & Hin & Hmax & ->).
    split; [|done].
    destruct (dir_entry dir f) as [[text|]|] eqn:Hentry; try done.
    intros metadata Hload. exists ts, f, text. split_and!; [done..|].
    by destruct (json_load text) as [j|]; simplify_eq/=.
Qed.

Lemma last_metadata_outcomes_witness :
  Forall (λ entry : string * option string, is_ascii_string entry.1 = true)
    [("proj.qgs", Some "<qgis>"); ("other_1700000000.meta", Some "{o}")]
  ∧ @_last_metadata sample_json "/home/user/proj.qgs"
      [("proj.qgs", Some "<qgis>"); ("other_1700000000.meta", Some "{o}")]
    = Some None.
Proof.
  assert (Hascii : Forall (λ entry : string * option string,
                             is_ascii_string entry.1 = true)
            [("proj.qgs", Some "<qgis>");
             ("other_1700000000.meta", Some "{o}")]).
  { repeat constructor. }
  split; [exact Hascii|].
  apply (proj2 (@last_metadata_outcomes sample_json "/home/user/proj.qgs"
                  _ Hascii)).
  reflexivity.
Defined.

Lemma dir_entry_app_other (d1 d2 : Directory) (e : string * option string)
    (f : string) :
  e.1 ≠ f → dir_entry (d1 ++ e :: d2) f = dir_entry (d1 ++ d2) f.
Proof.
  intros Hne. unfold dir_entry. f_equal.
  induction d1 as [|x d1 IH]; simpl.
  - destruct (String.eqb_spec e.1 f); [done|done].
  - by rewrite IH.
Qed.

Lemma head_sorted_reverse_elem {A} (le : relation A) `{!RelDecision le}
    (l : list A) (x : A) :
  head (sorted_reverse le l) = Some x → x ∈ l.
Proof.
  unfold sorted_reverse. intros Hh.
  rewrite <-(merge_sort_Permutation (flip le) l).
  destruct (merge_sort (flip le) l); [done|]. injection Hh as ->. left.
Qed.

(** X13: a directory entry that the loop does not retain (its name does
    not end in [.meta], or is made of ASCII characters and the pattern
    does not match it) has no effect on the result, wherever it stands in
    the listing. *)
Theorem last_metadata_ignores_other_files `{JsonModule} (fileName : string)
    (d1 d2 : Directory) (e : string * option string) :
  endswith e.1 ".meta" = false
  ∨ (is_ascii_string e.1 = true
     ∧ metadata_pattern_match (basename (splitext_root fileName)) e.1
       = None) →
  _last_metadata fileName (d1 ++ e :: d2) = _last_metadata fileName (d1 ++ d2).
Proof.
  intros Hskip. unfold _last_metadata.
  set (base := basename (splitext_root fileName)) in *.
  assert (endswith e.1 ".meta" = false
          ∨ metadata_pattern_match base e.1 = None) as Hskip'.
  { destruct Hskip as [?|[_ ?]]; [by left|by right]. }
  clear Hskip.
  assert (matched_metadata_files base (d1 ++ e :: d2)
          = matched_metadata_files base (d1 ++ d2)) as ->.
  { unfold matched_metadata_files. rewrite !omap_app. f_equal.
    rewrite omap_cons_eq.
    destruct Hskip' as [-> | Hpat]; [done|].
    destruct (endswith e.1 ".meta"); [|done]. by rewrite Hpat. }
  destruct (matched_metadata_files base (d1 ++ d2)) as [|m ms] eqn:Hm; [done|].
  destruct (head (sorted_reverse tuple_le (m :: ms))) as [[ts f]|] eqn:Hh;
    [|done].
  simpl. rewrite dir_entry_app_other; [done|].
  apply head_sorted_reverse_elem in Hh. rewrite <-Hm in Hh.
  apply matched_metadata_files_elem in Hh as (c & digits & _ & Hend & Hpat & _).
  intros Heq. rewrite Heq in Hskip'.
  destruct Hskip' as [Hskip'|Hskip']; congruence.
Qed.

Lemma last_metadata_ignores_other_files_witness :
  @_last_metadata sample_json "/home/user/proj.qgs" sample_directory
  = @_last_metadata sample_json "/home/user/proj.qgs"
      [("proj_1600000000.meta", Some "{}");
       ("proj.qgs", Some "<qgis>");
       ("proj_1650000000.meta", Some "{new}")].
Proof.
  apply (@last_metadata_ignores_other_files sample_json "/home/user/proj.qgs"
           [("proj_1600000000.meta", Some "{}"); ("proj.qgs", Some "<qgis>")]
           [("proj_1650000000.meta", Some "{new}")]
           ("other_1700000000.meta", Some "{o}")).
  right. split; reflexivity.
Defined.

(** The order of Python tuples [(int, str)] is a total order. *)
Lemma ascii_compare_refl (a : ascii) : Ascii.compare a a = Eq.
Proof. unfold Ascii.compare. apply N.compare_refl. Qed.

Lemma ascii_compare_lt_trans (a b c : ascii) :
  Ascii.compare a b = Lt → Ascii.compare b c = Lt → Ascii.compare a c = Lt.
Proof.
  unfold Ascii.compare. rewrite !N.compare_lt_iff. apply N.lt_trans.
Qed.

Lemma string_leb_trans (s1 s2 s3 : string) :
  String.leb s1 s2 = true → String.leb s2 s3 = true → String.leb s1 s3 = true.
Proof.
  unfold String.leb. revert s2 s3.
  induction s1 as [|c1 s1 IH]; intros [|c2 s2] [|c3 s3]; simpl; try done.
  destruct (Ascii.compare c1 c2) eqn:H12; [| |done];
    destruct (Ascii.compare c2 c3) eqn:H23; try done.
  - apply Ascii.compare_eq_iff in H12 as ->.
    apply Ascii.compare_eq_iff in H23 as ->.
    rewrite ascii_compare_refl. apply IH.
  - apply Ascii.compare_eq_iff in H12 as ->. by rewrite H23.
  - apply Ascii.compare_eq_iff in H23 as <-. by rewrite H12.
  - by rewrite (ascii_compare_lt_trans _ _ _ H12 H23).
Qed.

Lemma flip_tuple_le_trans : Transitive (flip tuple_le).
Proof.
  intros [t3 f3] [t2 f2] [t1 f1]. unfold flip, tuple_le. simpl.
  intros [?|[-> H23]] [?|[-> H12]]; [left; lia|by left|by left|right].
  split; [done|]. by apply string_leb_trans with f2.
Qed.

Lemma flip_tuple_le_antisym : AntiSymm (=) (flip tuple_le).
Proof.
  intros [t1 f1] [t2 f2]. unfold flip, tuple_le. simpl.
  intros [?|[-> H1]] [?|[? H2]]; try lia.
  f_equal. by apply String.leb_antisym.
Qed.

Lemma sorted_reverse_tuples_Permutation (m1 m2 : list (Z * string)) :
  m1 ≡ₚ m2 → sorted_reverse tuple_le m1 = sorted_reverse tuple_le m2.
Proof.
  intros Hperm. unfold sorted_reverse.
  apply (StronglySorted_unique (flip tuple_le)
           (AntiSymm0 := flip_tuple_le_antisym)).
  - apply (StronglySorted_merge_sort _ (Transitive0 := flip_tuple_le_trans)
             (Total0 := flip_tuple_le_total)).
  - apply (StronglySorted_merge_sort _ (Transitive0 := flip_tuple_le_trans)
             (Total0 := flip_tuple_le_total)).
  - by rewrite !merge_sort_Permutation.
Qed.

Lemma dir_entry_Some (dir : Directory) (f : string) (c : option string) :
  NoDup dir.*1 → dir_entry dir f = Some c ↔ (f, c) ∈ dir.
Proof.
  unfold dir_entry. induction dir as [|[g d] dir IH]; simpl; intros Hnd.
  - split; [done|by intros ?%elem_of_nil].
  - apply list.NoDup_cons in Hnd as [Hg Hnd].
    destruct (String.eqb_spec g f) as [->|Hne]; simpl.
    + split; [intros [= <-]; left|].
      intros [[= <-]|Hin]%elem_of_cons; [done|].
      destruct Hg. apply list_elem_of_fmap. by exists (f, c).
    + rewrite (IH Hnd). split; [by right|].
      intros [[= ? _]|Hin]%elem_of_cons; [by destruct Hne|done].
Qed.

Lemma dir_entry_None (dir : Directory) (f : string) :
  dir_entry dir f = None ↔ f ∉ dir.*1.
Proof.
  unfold dir_entry. induction dir as [|[g d] dir IH]; simpl.
  - split; [intros _; apply not_elem_of_nil|done].
  - destruct (String.eqb_spec g f) as [->|Hne]; simpl.
    + split; [done|]. intros Hn. destruct Hn. left.
    + rewrite IH, not_elem_of_cons. split; [by split|by intros [_ ?]].
Qed.

Lemma dir_entry_Permutation (dir dir' : Directory) (f : string) :
  NoDup dir.*1 → dir ≡ₚ dir' → dir_entry dir f = dir_entry dir' f.
Proof.
  intros Hnd Hperm.
  assert (NoDup dir'.*1) as Hnd' by by rewrite <-Hperm.
  destruct (dir_entry dir f) as [c|] eqn:He; symmetry.
  - apply dir_entry_Some; [done|]. rewrite <-Hperm. by apply dir_entry_Some.
  - apply dir_entry_None. rewrite <-Hperm. by apply dir_entry_None.
Qed.

(** X14: the result of [_last_metadata] does not depend on the order in
    which the directory is listed, the names in a directory being
    distinct. *)
Theorem last_metadata_listing_order `{JsonModule} (fileName : string)
    (dir dir' : Directory) :
  NoDup dir.*1 →
  dir ≡ₚ dir' →
  _last_metadata fileName dir = _last_metadata fileName dir'.
Proof.
  intros Hnd Hperm. unfold _last_metadata.
  set (base := basename (splitext_root fileName)).
  assert (matched_metadata_files base dir
          ≡ₚ matched_metadata_files base dir') as Hm.
  { unfold matched_metadata_files. by rewrite Hperm. }
  rewrite (sorted_reverse_tuples_Permutation _ _ Hm).
  destruct (matched_metadata_files base dir) as [|m ms],
    (matched_metadata_files base dir') as [|m' ms'].
  - done.
  - by apply Permutation_nil_l in Hm.
  - by apply Permutation_nil_r in Hm.
  - destruct (head _) as [[ts f]|]; [|done]. simpl.
    by rewrite (dir_entry_Permutation dir dir' f Hnd Hperm).
Qed.

Lemma last_metadata_listing_order_witness :
  @_last_metadata sample_json "/home/user/proj.qgs" sample_directory
  = @_last_metadata sample_json "/home/user/proj.qgs"
      (reverse sample_directory).
Proof.
  apply (@last_metadata_listing_order sample_json).
  - apply (bool_decide_unpack _). vm_compute. exact I.
  - by rewrite reverse_Permutation.
Defined.

(** ** What [append] changes in the store *)

Lemma live_mono (σ σ' : store) (a : Arg) :
  length σ ≤ length σ' → live σ a → live σ' a.
Proof. destruct a as [| |c]; simpl; [done|done|lia]. Qed.

Lemma attached_obj_fields (self node i : ref) (o : NodeObj) :
  obj_name (attached_obj self node i o) = obj_name o
  ∧ obj_layer (attached_obj self node i o) = obj_layer o
  ∧ (i ≠ self → obj_children (attached_obj self node i o) = obj_children o)
  ∧ (i ≠ node → obj_parent (attached_obj self node i o) = obj_parent o)
  ∧ (i = node → obj_parent (attached_obj self node i o) = Some self).
Proof.
  unfold attached_obj. simpl. split_and!; try done.
  - intros Hne. by rewrite decide_False.
  - intros Hne. by rewrite decide_False.
  - intros ->. by rewrite decide_True.
Qed.

Lemma append_frame (nodes : list Arg) : ∀ (σ : store) (self : ref),
  self < length σ →
  Forall (live σ) nodes →
  (∀ c, c ∈ attached (length σ) nodes →
     ∃ o, append σ self nodes !! c = Some o ∧ obj_parent o = Some self)
  ∧ (∀ i o, σ !! i = Some o →
       ∃ o', append σ self nodes !! i = Some o'
         ∧ obj_name o' = obj_name o
         ∧ obj_layer o' = obj_layer o
         ∧ (i ≠ self → obj_children o' = obj_children o)
         ∧ (i ∉ attached (length σ) nodes → obj_parent o' = obj_parent o)).
Proof.
  induction nodes as [|a rest IH]; intros σ self Hself Hlive.
  - simpl. split; [by intros c ?%elem_of_nil|].
    intros i o Hi. exists o. by split_and!.
  - apply list.Forall_cons in Hlive as [Ha Hlive].
    destruct a as [|s|node]; simpl.
    + by apply IH.
    + set (σ0 := σ ++ [fresh_obj s None]).
      set (σ1 := attach σ0 self (length σ)).
      assert (Hlen1 : length σ1 = S (length σ)).
      { unfold σ1, σ0. rewrite attach_length, length_app. simpl. lia. }
      assert (Hlive1 : Forall (live σ1) rest).
      { eapply list.Forall_impl; [exact Hlive|]. intros a.
        apply live_mono. lia. }
      destruct (IH σ1 self ltac:(lia) Hlive1) as [IH1 IH2].
      rewrite Hlen1 in IH1, IH2.
      assert (Hnew : ∃ o1, σ1 !! length σ = Some o1
                           ∧ obj_parent o1 = Some self).
      { unfold σ1. rewrite attach_lookup. unfold σ0.
        rewrite list_lookup_middle by done. eexists. split; [done|].
        by apply attached_obj_fields. }
      split.
      * intros c [->|Hc]%elem_of_cons; [|by apply IH1].
        destruct (decide (length σ ∈ attached (S (length σ)) rest))
          as [Hin|Hnin]; [by apply IH1|].
        destruct Hnew as (o1 & Ho1 & Hp1).
        destruct (IH2 _ _ Ho1) as (o' & Ho' & _ & _ & _ & Hp').
        exists o'. split; [done|]. by rewrite Hp'.
      * intros i o Hi.
        assert (i < length σ) as Hlt by by eapply lookup_lt_Some.
        assert (σ1 !! i = Some (attached_obj self (length σ) i o)) as Hi1.
        { unfold σ1. rewrite attach_lookup. unfold σ0.
          by rewrite lookup_app_l, Hi by done. }
        destruct (attached_obj_fields self (length σ) i o)
          as (Hn & Hl & Hc & Hp & _).
        destruct (IH2 _ _ Hi1) as (o' & Ho' & Hn' & Hl' & Hc' & Hp').
        exists o'. split_and!; [done|congruence|congruence| |].
        -- intros Hne. rewrite Hc' by done. by apply Hc.
        -- intros Hnin. apply not_elem_of_cons in Hnin as [Hne Hnin].
           rewrite Hp' by done. by apply Hp.
    + simpl in Ha. set (σ1 := attach σ self node).
      assert (Hlen1 : length σ1 = length σ).
      { unfold σ1. by rewrite attach_length. }
      assert (Hlive1 : Forall (live σ1) rest).
      { eapply list.Forall_impl; [exact Hlive|]. intros a.
        apply live_mono. lia. }
      destruct (IH σ1 self ltac:(lia) Hlive1) as [IH1 IH2].
      rewrite Hlen1 in IH1, IH2.
      split.
      * intros c [->|Hc]%elem_of_cons; [|by apply IH1].
        destruct (decide (node ∈ attached (length σ) rest))
          as [Hin|Hnin]; [by apply IH1|].
        destruct (lookup_lt_is_Some_2 σ node Ha) as [o Ho].
        assert (σ1 !! node = Some (attached_obj self node node o)) as Ho1.
        { unfold σ1. by rewrite attach_lookup, Ho. }
        destruct (IH2 _ _ Ho1) as (o' & Ho' & _ & _ & _ & Hp').
        exists o'. split; [done|]. rewrite Hp' by done.
        by apply attached_obj_fields.
      * intros i o Hi.
        assert (σ1 !! i = Some (attached_obj self node i o)) as Hi1.
        { unfold σ1. by rewrite attach_lookup, Hi. }
        destruct (attached_obj_fields self node i o)
          as (Hn & Hl & Hc & Hp & _).
        destruct (IH2 _ _ Hi1) as (o' & Ho' & Hn' & Hl' & Hc' & Hp').
        exists o'. split_and!; [done|congruence|congruence| |].
        -- intros Hne. rewrite Hc' by done. by apply Hc.
        -- intros Hnin. apply not_elem_of_cons in Hnin as [Hne Hnin].
           rewrite Hp' by done. by apply Hp.
Qed.

Lemma append_children (nodes : list Arg) : ∀ (σ : store) (self : ref),
  self < length σ →
  children_of (append σ self nodes) self
  = children_of σ self ++ attached (length σ) nodes
  ∧ length (append σ self nodes) = length σ + length (wrapped nodes).
Proof.
  induction nodes as [|a rest IH]; intros σ self Hself.
  - simpl. split; [by rewrite app_nil_r|lia].
  - destruct a as [|s|node]; simpl.
    + by apply IH.
    + set (σ0 := σ ++ [fresh_obj s None]).
      assert (Hlen0 : length σ0 = S (length σ)).
      { unfold σ0. rewrite length_app. simpl. lia. }
      destruct (IH (attach σ0 self (length σ)) self) as [IH1 IH2].
      { rewrite attach_length. lia. }
      rewrite attach_length, Hlen0 in IH1, IH2. split; [|lia].
      rewrite IH1, attach_children_self by lia.
      rewrite <-(assoc_L (++)). simpl. f_equal.
      unfold children_of, σ0. by rewrite lookup_app_l by lia.
    + destruct (IH (attach σ self node) self) as [IH1 IH2].
      { by rewrite attach_length. }
      rewrite attach_length in IH1, IH2. split; [|lia].
      rewrite IH1, attach_children_self by lia.
      by rewrite <-(assoc_L (++)).
Qed.

(** X15: what [append] does to any store, whatever was attached where
    before: the references of the arguments that are not [None] are added
    to the end of the receiver's children; every one of these nodes has
    the receiver as its parent afterwards, also when it had another; and
    for the objects that were there, names and layers, the children of
    every node but the receiver and the parent of every node not attached
    stay as they were. *)
Theorem append_changes (σ : store) (self : ref) (nodes : list Arg) :
  self < length σ →
  Forall (live σ) nodes →
  children_of (append σ self nodes) self
  = children_of σ self ++ attached (length σ) nodes
  ∧ (∀ c, c ∈ attached (length σ) nodes →
       ∃ o, append σ self nodes !! c = Some o ∧ obj_parent o = Some self)
  ∧ (∀ i o, σ !! i = Some o →
       ∃ o', append σ self nodes !! i = Some o'
         ∧ obj_name o' = obj_name o
         ∧ obj_layer o' = obj_layer o
         ∧ (i ≠ self → obj_children o' = obj_children o)
         ∧ (i ∉ attached (length σ) nodes → obj_parent o' = obj_parent o)).
Proof.
  intros Hself Hlive.
  destruct (append_frame nodes σ self Hself Hlive) as [H1 H2].
  split_and!; [|done|done]. by apply append_children.
Qed.

Lemma append_changes_witness :
  children_of (append parent_child_store 0 [ArgNode 1; ArgStr "b"]) 0
  = [1; 2].
Proof.
  assert (Hself : 0 < length parent_child_store) by (vm_compute; lia).
  assert (Hlive : Forall (live parent_child_store) [ArgNode 1; ArgStr "b"]).
  { repeat constructor. }
  exact (proj1 (append_changes parent_child_store 0 _ Hself Hlive)).
Defined.

Lemma Node_init_length (σ : store) (name : string)
    (children : option (list Arg)) (layer : option Layer) :
  (Node_init σ name children layer).2 = length σ.
Proof. by destruct children as [[|a rest]|]. Qed.

Lemma attached_above (next : nat) (nodes : list Arg) (bound : nat) :
  bound < next →
  Forall (λ a, match a with ArgNode c => c ≠ bound | _ => True end) nodes →
  bound ∉ attached next nodes.
Proof.
  revert next. induction nodes as [|a rest IH]; intros next Hlt Hall.
  - apply not_elem_of_nil.
  - apply list.Forall_cons in Hall as [Ha Hall].
    destruct a as [|s|c]; simpl.
    + by apply IH.
    + apply not_elem_of_cons. split; [lia|]. apply IH; [lia|done].
    + apply not_elem_of_cons. split; [done|]. by apply IH.
Qed.

(** X16: [Node(name, children, layer)] adds its object at the end of the
    store and returns that reference; the object has the given name and
    layer, no parent, and for children the references of the arguments
    that are not [None] in their order (none for [None] or an empty
    list); the objects that were there keep their names, layers and
    children. *)
Theorem Node_init_new_object (σ : store) (name : string)
    (children : option (list Arg)) (layer : option Layer) :
  Forall (live σ) (default [] children) →
  (Node_init σ name children layer).2 = length σ
  ∧ (∃ o, (Node_init σ name children layer).1 !! length σ = Some o
       ∧ obj_name o = name
       ∧ obj_layer o = layer
       ∧ obj_parent o = None
       ∧ obj_children o = attached (S (length σ)) (default [] children))
  ∧ (∀ i o, σ !! i = Some o →
       ∃ o', (Node_init σ name children layer).1 !! i = Some o'
         ∧ obj_name o' = obj_name o
         ∧ obj_layer o' = obj_layer o
         ∧ obj_children o' = obj_children o).
Proof.
  intros Hlive. rewrite Node_init_length, Node_init_store.
  set (σ1 := σ ++ [fresh_obj name layer]).
  assert (Hlen1 : length σ1 = S (length σ)).
  { unfold σ1. rewrite length_app. simpl. lia. }
  assert (Hlive1 : Forall (live σ1) (default [] children)).
  { eapply list.Forall_impl; [exact Hlive|]. intros a. apply live_mono. lia. }
  destruct (append_frame (default [] children) σ1 (length σ)
              ltac:(lia) Hlive1) as [_ Hframe].
  destruct (append_children (default [] children) σ1 (length σ) ltac:(lia))
    as [Hch _].
  rewrite Hlen1 in Hframe, Hch.
  split_and!; [done| |].
  - destruct (Hframe (length σ) (fresh_obj name layer))
      as (o' & Ho' & Hn & Hl & _ & Hp).
    { unfold σ1. by rewrite list_lookup_middle. }
    exists o'. split_and!; [done|done|done| |].
    + apply Hp, attached_above; [lia|].
      eapply list.Forall_impl; [exact Hlive|].
      intros [| |c]; simpl; [done|done|lia].
    + unfold children_of in Hch. rewrite Ho' in Hch. simpl in Hch.
      rewrite Hch. unfold σ1. by rewrite list_lookup_middle.
  - intros i o Hi.
    assert (i < length σ) as Hlt by by eapply lookup_lt_Some.
    destruct (Hframe i o) as (o' & Ho' & Hn & Hl & Hc & _).
    { unfold σ1. by rewrite lookup_app_l. }
    exists o'. split_and!; [done|done|done|]. apply Hc. lia.
Qed.

Lemma Node_init_new_object_witness :
  (Node_init (Node_init [] "a" None None).1
             "p" (Some [ArgNode 0; ArgNone; ArgStr "b"]) None).2 = 1.
Proof.
  assert (Hlive : Forall (live (Node_init [] "a" None None).1)
                    (default [] (Some [ArgNode 0; ArgNone; ArgStr "b"]))).
  { repeat constructor. }
  exact (proj1 (Node_init_new_object _ "p" _ None Hlive)).
Defined.

(** ** The mirrored trees as objects *)

Lemma overlays_children_store_loop (p : Layer → bool)
    (cs : list LayerTreeNode) (σ : store) (children : list ref) :
  (fix loop (cs : list LayerTreeNode) (σ : store) (children : list ref)
     : store * list ref :=
     match cs with
     | [] => (σ, children)
     | child_tree_node :: rest =>
         let '(σ', node) := overlays_tree_store p child_tree_node σ in
         loop rest σ'
           match node with
           | Some node => children ++ [node]
           | None => children
           end
     end) cs σ children
  = overlays_children_store p cs σ children.
Proof.
  revert σ children. induction cs as [|c cs IH]; intros σ children; [done|].
  cbn [overlays_children_store].
  destruct (overlays_tree_store p c σ) as [σ' node]. apply IH.
Qed.

Lemma overlays_tree_store_group (p : Layer → bool) (g : string)
    (cs : list LayerTreeNode) (σ : store) :
  overlays_tree_store p (QgsLayerTreeGroup g cs) σ
  = let '(σ1, children) := overlays_children_store p cs σ [] in
    match children with
    | [] => (σ1, None)
    | _ :: _ =>
        let '(σ2, node) :=
          Node_init σ1 g (Some (ArgNode <$> children)) None in
        (σ2, Some node)
    end.
Proof.
  cbn [overlays_tree_store]. by rewrite overlays_children_store_loop.
Qed.

Lemma NodeObj_eq (o o' : NodeObj) :
  obj_name o' = obj_name o → obj_layer o' = obj_layer o →
  obj_children o' = obj_children o → obj_parent o' = obj_parent o → o' = o.
Proof. destruct o, o'. simpl. by intros -> -> -> ->. Qed.

Lemma represents_same_shape (σ σ' : store) (n : Node) :
  same_shape σ σ' → ∀ r, represents σ r n → represents σ' r n.
Proof.
  intros Hshape. induction n as [s l cs IH] using Node_tree_ind.
  intros r Hr. inversion Hr as [r' o cs' Ho Hcs]; subst.
  destruct (Hshape r o Ho) as (o' & Ho' & <- & <- & Hc).
  constructor; [done|]. rewrite Hc. clear Ho Ho' Hc Hr.
  revert IH. induction Hcs as [|c n cs' ns Hc _ IHcs]; intros IH; [constructor|].
  apply list.Forall_cons in IH as [IHn IH]. constructor; [by apply IHn|by apply IHcs].
Qed.

Lemma extends_refl (σ : store) : extends σ σ.
Proof.
  split_and!; [done|done|].
  intros n o c Hn Hle _. apply lookup_lt_Some in Hn. lia.
Qed.

Lemma extends_trans (σ σ1 σ2 : store) :
  extends σ σ1 → extends σ1 σ2 → extends σ σ2.
Proof.
  intros (Hl1 & Hk1 & Hc1) (Hl2 & Hk2 & Hc2). split_and!; [lia| |].
  - intros i Hi. rewrite Hk2 by lia. by apply Hk1.
  - intros n o c Hn Hle Hc. destruct (decide (n < length σ1)) as [Hlt|Hge].
    + rewrite Hk2 in Hn by done. by eapply Hc1.
    + etrans; [exact Hl1|]. eapply Hc2; [done|lia|done].
Qed.

Lemma extends_same_shape (σ σ' : store) : extends σ σ' → same_shape σ σ'.
Proof.
  intros (_ & Hk & _) i o Hi. exists o. split_and!; [|done..].
  rewrite Hk; [done|]. by eapply lookup_lt_Some.
Qed.

Lemma root_ok_extends (σ0 σ1 σ2 : store) (root : ref) :
  root_ok σ0 σ1 root → extends σ1 σ2 → root_ok σ0 σ2 root.
Proof.
  intros ([Hlo Hhi] & Hun & o & Ho & Hp) (Hl & Hk & Hc). split_and!.
  - done.
  - lia.
  - intros n o' Hn Hin. destruct (decide (n < length σ1)) as [Hlt|Hge].
    + rewrite Hk in Hn by done. by apply (Hun n o').
    + pose proof (Hc n o' root Hn ltac:(lia) Hin). lia.
  - exists o. split; [|done]. by rewrite Hk.
Qed.

Lemma root_ok_weaken (σ0 σ σ' : store) (root : ref) :
  length σ0 ≤ length σ → root_ok σ σ' root → root_ok σ0 σ' root.
Proof. intros Hle ([? ?] & ? & ?). split_and!; [lia|done..]. Qed.

Lemma children_live_alloc (σ : store) (o : NodeObj) :
  children_live σ → obj_children o = [] → children_live (σ ++ [o]).
Proof.
  intros Hlive Ho n on c Hn Hc. rewrite length_app. simpl.
  apply lookup_app_Some in Hn as [Hn|[_ Hn]].
  - pose proof (Hlive n on c Hn Hc). lia.
  - apply list_lookup_singleton_Some in Hn as [_ <-].
    rewrite Ho in Hc. by apply elem_of_nil in Hc.
Qed.

Lemma children_live_Forall (σ : store) :
  Forall (λ o, Forall (λ c, c < length σ) (obj_children o)) σ →
  children_live σ.
Proof.
  intros Hall n o c Hn Hc. rewrite list.Forall_forall in Hall.
  pose proof (Hall o (list_elem_of_lookup_2 _ _ _ Hn)) as Ho.
  rewrite list.Forall_forall in Ho. by apply Ho.
Qed.

(** The invariant of the objects added after [σ] carries over to a store
    that extends [σ] by objects with the invariant. *)
Lemma parent_inv_from_extends (k : nat) (σ σ' : store) :
  children_live σ → extends σ σ' →
  parent_inv_from k σ → parent_inv_from (length σ) σ' →
  parent_inv_from k σ'.
Proof.
  intros Hlive (Hl & Hk & _) Hold Hnew n o c Hle Hn Hc.
  destruct (decide (n < length σ)) as [Hlt|Hge].
  - rewrite Hk in Hn by done.
    destruct (Hold n o c Hle Hn Hc) as (oc & Hoc & Hp).
    exists oc. split; [|done]. rewrite Hk; [done|]. exact (Hlive n o c Hn Hc).
  - apply (Hnew n o c); [lia|done|done].
Qed.

Lemma parent_inv_from_0 (σ : store) : parent_inv_from 0 σ ↔ parent_inv σ.
Proof.
  split.
  - intros Hinv n o c. apply Hinv. lia.
  - intros Hinv n o c _. apply Hinv.
Qed.

Section StoreMirror.
Variable p : Layer → bool.

Let tree_inv (t : LayerTreeNode) : Prop :=
  ∀ σ, children_live σ →
    children_live (overlays_tree_store p t σ).1
    ∧ parent_inv_from (length σ) (overlays_tree_store p t σ).1
    ∧ extends σ (overlays_tree_store p t σ).1
    ∧ match (overlays_tree_store p t σ).2 with
      | Some root =>
          root_ok σ (overlays_tree_store p t σ).1 root
          ∧ ∃ n, mirror_tree p t = Some n
                 ∧ represents (overlays_tree_store p t σ).1 root n
      | None => (overlays_tree_store p t σ).1 = σ ∧ mirror_tree p t = None
      end.

Lemma parent_inv_from_length (σ : store) : parent_inv_from (length σ) σ.
Proof. intros n o c Hle Hn. apply lookup_lt_Some in Hn. lia. Qed.

Lemma tree_inv_layer (l : Layer) : tree_inv (QgsLayerTreeLayer l).
Proof.
  intros σ Hlive. simpl. destruct (p l) eqn:Hl; simpl.
  2:{ split_and!;
        [done|apply parent_inv_from_length|apply extends_refl|done|done]. }
  split_and!.
  - by apply children_live_alloc.
  - intros n o c Hle Hn Hc.
    apply lookup_app_Some in Hn as [Hn|[_ Hn]].
    + apply lookup_lt_Some in Hn. lia.
    + apply list_lookup_singleton_Some in Hn as [_ <-].
      by apply elem_of_nil in Hc.
  - split_and!.
    + rewrite length_app. lia.
    + intros i Hi. by rewrite lookup_app_l.
    + intros n o c Hn Hle Hc.
      apply lookup_app_Some in Hn as [Hn|[_ Hn]].
      * apply lookup_lt_Some in Hn. lia.
      * apply list_lookup_singleton_Some in Hn as [_ <-].
        by apply elem_of_nil in Hc.
  - split_and!.
    + done.
    + rewrite length_app. simpl. lia.
    + intros n o Hn Hin.
      apply lookup_app_Some in Hn as [Hn|[_ Hn]].
      * pose proof (Hlive n o _ Hn Hin). lia.
      * apply list_lookup_singleton_Some in Hn as [_ <-].
        by apply elem_of_nil in Hin.
    + eexists. split; [by apply list_lookup_middle|done].
  - eexists. split; [done|].
    apply (represents_node _ _ (fresh_obj (layer_id l) (Some l)) []).
    + by apply list_lookup_middle.
    + constructor.
Qed.

Lemma children_store_inv (cs : list LayerTreeNode) :
  Forall tree_inv cs →
  ∀ (σ0 σ : store) (acc : list ref) (ns : list Node),
    children_live σ →
    parent_inv_from (length σ0) σ →
    length σ0 ≤ length σ →
    Forall (root_ok σ0 σ) acc →
    Forall2 (represents σ) acc ns →
    children_live (overlays_children_store p cs σ acc).1
    ∧ parent_inv_from (length σ0) (overlays_children_store p cs σ acc).1
    ∧ extends σ (overlays_children_store p cs σ acc).1
    ∧ Forall (root_ok σ0 (overlays_children_store p cs σ acc).1)
             (overlays_children_store p cs σ acc).2
    ∧ Forall2 (represents (overlays_children_store p cs σ acc).1)
              (overlays_children_store p cs σ acc).2
              (ns ++ omap (mirror_tree p) cs)
    ∧ (omap (mirror_tree p) cs = [] →
       (overlays_children_store p cs σ acc).1 = σ).
Proof.
  induction 1 as [|c cs Hc _ IH];
    intros σ0 σ acc ns Hlive Hfrom Hlen Hacc Hrep.
  - simpl. rewrite app_nil_r.
    split_and!; [done|done|apply extends_refl|done|done|done].
  - cbn [overlays_children_store]. rewrite omap_cons_eq.
    destruct (Hc σ Hlive) as (Hlive' & Hfrom' & Hext & Hnode).
    destruct (overlays_tree_store p c σ) as [σ' node].
    cbn [fst snd] in Hlive', Hfrom', Hext, Hnode.
    assert (length σ0 ≤ length σ') as Hlen'.
    { destruct Hext as (? & _). lia. }
    assert (parent_inv_from (length σ0) σ') as Hfrom0.
    { by apply parent_inv_from_extends with σ. }
    assert (Forall (root_ok σ0 σ') acc) as Hacc'.
    { eapply list.Forall_impl; [exact Hacc|]. intros a Ha.
      by eapply root_ok_extends. }
    assert (Forall2 (represents σ') acc ns) as Hrep'.
    { eapply list.Forall2_impl; [exact Hrep|]. intros a n.
      by apply represents_same_shape, extends_same_shape. }
    destruct node as [root|].
    + destruct Hnode as (Hroot & n & -> & Hn).
      destruct (IH σ0 σ' (acc ++ [root]) (ns ++ [n]) Hlive' Hfrom0 Hlen')
        as (H0 & H1 & H2 & H3 & H4 & _).
      { apply Forall_app. split; [done|]. constructor; [|done].
        by apply root_ok_weaken with σ. }
      { apply Forall2_app; [done|]. by constructor. }
      split_and!; [done|done|by eapply extends_trans|done| |done].
      by rewrite <-(assoc_L (++)) in H4.
    + destruct Hnode as [-> ->].
      destruct (IH σ0 σ acc ns Hlive Hfrom Hlen Hacc Hrep)
        as (H0 & H1 & H2 & H3 & H4 & H5).
      by split_and!.
Qed.

Lemma attached_ArgNode (next : nat) (refs : list ref) :
  attached next (ArgNode <$> refs) = refs.
Proof. induction refs as [|r refs IH]; [done|]. simpl. f_equal. exact IH. Qed.

Lemma wrapped_ArgNode (refs : list ref) : wrapped (ArgNode <$> refs) = [].
Proof. induction refs as [|r refs IH]; [done|]. simpl. exact IH. Qed.

Lemma tree_inv_group (g : string) (cs : list LayerTreeNode) :
  Forall tree_inv cs → tree_inv (QgsLayerTreeGroup g cs).
Proof.
  intros Hcs σ Hlive. rewrite overlays_tree_store_group, mirror_tree_group.
  destruct (children_store_inv cs Hcs σ σ [] [] Hlive
              (parent_inv_from_length σ) (le_n _))
    as (Hlive1 & Hfrom1 & Hext1 & Hroots & Hrep & Hsame);
    [constructor|constructor|].
  destruct (overlays_children_store p cs σ []) as [σ1 children].
  simpl in Hlive1, Hfrom1, Hext1, Hroots, Hrep, Hsame.
  destruct children as [|c1 rest].
  { apply Forall2_nil_inv_l in Hrep. rewrite Hrep. simpl.
    split_and!; [done|done|done|by apply Hsame|done]. }
  set (children := c1 :: rest) in *.
  destruct (omap (mirror_tree p) cs) as [|n1 ns] eqn:Hns.
  { by apply Forall2_nil_inv_r in Hrep. }
  set (nodes := n1 :: ns) in *.
  destruct (Node_init σ1 g (Some (ArgNode <$> children)) None)
    as [σ2 self] eqn:Hinit.
  assert (Hσ2 : σ2 = append (σ1 ++ [fresh_obj g None]) (length σ1)
                       (ArgNode <$> children)).
  { pose proof (Node_init_store σ1 g (Some (ArgNode <$> children)) None) as E.
    by rewrite Hinit in E. }
  assert (Hself : self = length σ1).
  { pose proof (Node_init_length σ1 g (Some (ArgNode <$> children)) None) as E.
    by rewrite Hinit in E. }
  subst self. simpl.
  set (σ1' := σ1 ++ [fresh_obj g None]) in *.
  assert (Hlen1' : length σ1' = S (length σ1)).
  { unfold σ1'. rewrite length_app. simpl. lia. }
  rewrite list.Forall_forall in Hroots.
  assert (Hbelow : ∀ c, c ∈ children → length σ ≤ c < length σ1).
  { intros c Hc. by destruct (Hroots c Hc) as (? & _). }
  assert (Hlive1' : Forall (live σ1') (ArgNode <$> children)).
  { apply Forall_fmap, list.Forall_forall. intros c Hc. simpl.
    destruct (Hbelow c Hc). lia. }
  destruct (append_children (ArgNode <$> children) σ1' (length σ1) ltac:(lia))
    as [Hch2 Hlen2].
  destruct (append_frame (ArgNode <$> children) σ1' (length σ1)
              ltac:(lia) Hlive1') as [Hatt Hframe].
  rewrite <-Hσ2 in Hch2, Hlen2, Hatt, Hframe.
  rewrite Hlen1', attached_ArgNode in Hch2, Hatt, Hframe.
  rewrite wrapped_ArgNode, Hlen1' in Hlen2. simpl in Hlen2.
  assert (Hch1' : children_of σ1' (length σ1) = []).
  { unfold children_of, σ1'. by rewrite list_lookup_middle. }
  rewrite Hch1' in Hch2. simpl in Hch2.
  (* the objects of σ1 in σ2 *)
  assert (Hold : ∀ i o, σ1 !! i = Some o →
            ∃ o', σ2 !! i = Some o' ∧ obj_name o' = obj_name o
              ∧ obj_layer o' = obj_layer o
              ∧ obj_children o' = obj_children o
              ∧ (i ∉ children → obj_parent o' = obj_parent o)).
  { intros i o Hi.
    assert (i < length σ1) as Hlt by by eapply lookup_lt_Some.
    destruct (Hframe i o) as (o' & Ho' & Hn & Hl & Hc & Hp).
    { unfold σ1'. by rewrite lookup_app_l. }
    exists o'. split_and!; [done|done|done| |done]. apply Hc. lia. }
  (* the new object *)
  assert (Hnew : ∃ o', σ2 !! length σ1 = Some o' ∧ obj_name o' = g
                   ∧ obj_layer o' = None ∧ obj_children o' = children
                   ∧ obj_parent o' = None).
  { destruct (Hframe (length σ1) (fresh_obj g None))
      as (o' & Ho' & Hn & Hl & _ & Hp).
    { unfold σ1'. by rewrite list_lookup_middle. }
    exists o'. split_and!; [done|done|done| |].
    - unfold children_of in Hch2. by rewrite Ho' in Hch2.
    - apply Hp. intros Hin. destruct (Hbelow _ Hin). lia. }
  destruct Hnew as (onew & Honew & Hname & Hlayer & Hchildren & Hparent).
  (* what an object of σ2 lists was listed in σ1, or is one of [children] *)
  assert (Hlisted : ∀ n o' c, σ2 !! n = Some o' → c ∈ obj_children o' →
            (n = length σ1 ∧ c ∈ children)
            ∨ (n < length σ1 ∧ ∃ o, σ1 !! n = Some o ∧ c ∈ obj_children o)).
  { intros n o' c Hn Hc.
    destruct (decide (n = length σ1)) as [->|Hne].
    - left. rewrite Honew in Hn. injection Hn as <-.
      by rewrite Hchildren in Hc.
    - right. assert (n < length σ1) as Hlt.
      { apply lookup_lt_Some in Hn. lia. }
      split; [done|].
      destruct (lookup_lt_is_Some_2 σ1 n Hlt) as [o Ho].
      destruct (Hold n o Ho) as (o'' & Ho'' & _ & _ & Hc'' & _).
      rewrite Hn in Ho''. injection Ho'' as <-. rewrite Hc'' in Hc.
      by exists o. }
  destruct Hext1 as (Hl1 & Hk1 & Hc1).
  split; [|split; [|split; [|split]]].
  - intros n o' c Hn Hc. rewrite Hlen2.
    destruct (Hlisted n o' c Hn Hc) as [[_ Hin]|(_ & o & Ho & Hin)].
    + destruct (Hbelow c Hin). lia.
    + pose proof (Hlive1 n o c Ho Hin). lia.
  - intros n o' c Hle Hn Hc.
    destruct (Hlisted n o' c Hn Hc) as [[-> Hin]|(Hlt & o & Ho & Hin)].
    + by apply Hatt.
    + destruct (Hfrom1 n o c Hle Ho Hin) as (oc & Hoc & Hp).
      destruct (Hold c oc Hoc) as (oc' & Hoc' & _ & _ & _ & Hp').
      exists oc'. split; [done|]. rewrite Hp'; [done|].
      intros Hcin. destruct (Hroots c Hcin) as (_ & Hun & _).
      by apply (Hun n o).
  - unfold extends. split_and!.
    + lia.
    + intros i Hi. rewrite <-(Hk1 i Hi).
      destruct (lookup_lt_is_Some_2 σ1 i ltac:(lia)) as [o Ho].
      destruct (Hold i o Ho) as (o' & Ho' & Hn & Hl & Hc & Hp).
      rewrite Ho, Ho'. f_equal. apply NodeObj_eq; [done..|].
      apply Hp. intros Hin. destruct (Hbelow _ Hin). lia.
    + intros n o' c Hn Hle Hc.
      destruct (Hlisted n o' c Hn Hc) as [[_ Hin]|(_ & o & Ho & Hin)].
      * by destruct (Hbelow c Hin).
      * by eapply Hc1.
  - unfold root_ok. split; [lia|]. split.
    + intros n o' Hn Hin.
      destruct (Hlisted n o' _ Hn Hin) as [[_ Hin']|(_ & o & Ho & Hin')].
      * destruct (Hbelow _ Hin'). lia.
      * pose proof (Hlive1 n o _ Ho Hin'). lia.
    + by exists onew.
  - exists (mkNode g None nodes). split; [done|].
    rewrite <-Hname, <-Hlayer. constructor; [done|].
    rewrite Hchildren. eapply list.Forall2_impl; [exact Hrep|].
    intros a n. apply represents_same_shape.
    intros i o Hi. destruct (Hold i o Hi) as (o' & ? & ? & ? & ? & _).
    by exists o'.
Qed.

Lemma overlays_tree_store_inv (t : LayerTreeNode) : tree_inv t.
Proof.
  induction t as [l|g cs IH] using LayerTreeNode_tree_ind.
  - apply tree_inv_layer.
  - by apply tree_inv_group.
Qed.

(** What [overlays_tree_store] does to a store without dangling child
    references. *)
Lemma overlays_tree_store_objects (t : LayerTreeNode) (σ : store) :
  children_live σ →
  children_live (overlays_tree_store p t σ).1
  ∧ (∀ i, i < length σ → (overlays_tree_store p t σ).1 !! i = σ !! i)
  ∧ parent_inv_from (length σ) (overlays_tree_store p t σ).1
  ∧ (parent_inv σ → parent_inv (overlays_tree_store p t σ).1)
  ∧ match (overlays_tree_store p t σ).2, mirror_tree p t with
    | Some root, Some n =>
        represents (overlays_tree_store p t σ).1 root n
        ∧ length σ ≤ root
        ∧ (∀ m o, (overlays_tree_store p t σ).1 !! m = Some o →
             root ∉ obj_children o)
        ∧ ∃ o, (overlays_tree_store p t σ).1 !! root = Some o
               ∧ obj_parent o = None
    | None, None => (overlays_tree_store p t σ).1 = σ
    | _, _ => False
    end.
Proof.
  intros Hlive.
  destruct (overlays_tree_store_inv t σ Hlive) as (H1 & H2 & H3 & H4).
  split_and!; [done|by destruct H3 as (_ & ? & _)|done| |].
  - intros Hinv. apply parent_inv_from_0.
    apply parent_inv_from_extends with σ; [done|done| |done].
    by apply parent_inv_from_0.
  - destruct (overlays_tree_store p t σ).2 as [root|].
    + destruct H4 as (([? _] & Hun & Hp) & n & -> & Hrep). by split_and!.
    + by destruct H4 as [? ->].
Qed.
End StoreMirror.

Lemma two_parents_store_live : children_live two_parents_store.
Proof.
  apply children_live_Forall, (bool_decide_unpack _). vm_compute. exact I.
Qed.

(** X17: run on any store of [Node] objects (one without dangling child
    references, as every store of Python objects is),
    [get_project_layers] and [get_project_base_layers] leave the objects
    that were there untouched and add objects that are the parents of
    their children, whatever holds of the objects that were there; if the
    parent invariant held of the store, it holds afterwards.  They return
    a reference exactly when the tree exists, and the object returned
    then is a new one without parent, which no object lists as a child,
    and whose descendants read as the tree the function returns. *)
Theorem mirrored_tree_objects (root_node : LayerTreeNode) (σ : store) :
  children_live σ →
  (children_live (get_project_layers_store root_node σ).1
   ∧ (∀ i, i < length σ →
        (get_project_layers_store root_node σ).1 !! i = σ !! i)
   ∧ parent_inv_from (length σ) (get_project_layers_store root_node σ).1
   ∧ (parent_inv σ → parent_inv (get_project_layers_store root_node σ).1)
   ∧ match (get_project_layers_store root_node σ).2,
           OverlayLayers.get_project_layers root_node with
     | Some root, Some n =>
         represents (get_project_layers_store root_node σ).1 root n
         ∧ length σ ≤ root
         ∧ (∀ m o, (get_project_layers_store root_node σ).1 !! m = Some o →
              root ∉ obj_children o)
         ∧ ∃ o, (get_project_layers_store root_node σ).1 !! root = Some o
                ∧ obj_parent o = None
     | None, None => (get_project_layers_store root_node σ).1 = σ
     | _, _ => False
     end)
  ∧ (children_live (get_project_base_layers_store root_node σ).1
     ∧ (∀ i, i < length σ →
          (get_project_base_layers_store root_node σ).1 !! i = σ !! i)
     ∧ parent_inv_from (length σ)
         (get_project_base_layers_store root_node σ).1
     ∧ (parent_inv σ →
        parent_inv (get_project_base_layers_store root_node σ).1)
     ∧ match (get_project_base_layers_store root_node σ).2,
             BaseLayers.get_project_base_layers root_node with
       | Some root, Some n =>
           represents (get_project_base_layers_store root_node σ).1 root n
           ∧ length σ ≤ root
           ∧ (∀ m o, (get_project_base_layers_store root_node σ).1 !! m
                     = Some o → root ∉ obj_children o)
           ∧ ∃ o, (get_project_base_layers_store root_node σ).1 !! root
                  = Some o
                  ∧ obj_parent o = None
       | None, None => (get_project_base_layers_store root_node σ).1 = σ
       | _, _ => False
       end).
Proof.
  intros Hlive.
  unfold get_project_layers_store, get_project_base_layers_store,
    OverlayLayers.get_project_layers, BaseLayers.get_project_base_layers.
  rewrite overlay_overlays_tree_mirror, base_overlays_tree_mirror.
  split; by apply overlays_tree_store_objects.
Qed.

Lemma mirrored_tree_objects_witness :
  children_live two_parents_store
  ∧ (get_project_layers_store sample_tree two_parents_store).2 = Some 4
  ∧ (∀ i, i < length two_parents_store →
       (get_project_layers_store sample_tree two_parents_store).1 !! i
       = two_parents_store !! i)
  ∧ parent_inv_from (length two_parents_store)
      (get_project_layers_store sample_tree two_parents_store).1.
Proof.
  pose proof (mirrored_tree_objects sample_tree two_parents_store
                two_parents_store_live) as [(_ & Hkeep & Hfrom & _) _].
  split_and!; [exact two_parents_store_live|reflexivity|exact Hkeep|exact Hfrom].
Defined.

(** ** Stored scales *)

Lemma split_colon_no_colon (s : string) :
  has_colon s = false → split_colon s = [s].
Proof.
  induction s as [|c s IH]; [done|]. simpl.
  destruct (Ascii.eqb c ":"); [done|]. simpl. intros Hs. by rewrite IH.
Qed.

Lemma split_colon_cons (c : ascii) (rest : string) :
  split_colon (String c rest)
  = if Ascii.eqb c ":" then EmptyString :: split_colon rest
    else match split_colon rest with
         | field :: fields => String c field :: fields
         | [] => [String c EmptyString]
         end.
Proof. reflexivity. Qed.

Lemma split_colon_last (pre s : string) :
  has_colon s = false →
  List.last (split_colon (pre ++ String ":" s)%string) EmptyString = s
  ∧ 2 ≤ length (split_colon (pre ++ String ":" s)%string).
Proof.
  intros Hs. induction pre as [|c pre [IH1 IH2]].
  - simpl. rewrite (split_colon_no_colon s Hs). by split.
  - change (String c pre ++ String ":" s)%string
      with (String c (pre ++ String ":" s)%string).
    rewrite split_colon_cons.
    destruct (split_colon (pre ++ String ":" s)%string) as [|f [|g fs]];
      simpl in IH2; [lia|lia|].
    destruct (Ascii.eqb c ":"); (split; [exact IH1|simpl; lia]).
Qed.

(** X18: of a stored scale only the text after its last colon is parsed:
    an entry such as [1:5000] and the entry [5000] give the same kept
    scales, and an entry without colon is parsed as a whole. *)
Theorem kept_scales_after_last_colon `{Imports} (wmsc_layers_scales : list Z)
    (pre s : string) (entries : list string) :
  has_colon s = false →
  last_field s = s
  ∧ last_field (pre ++ String ":" s)%string = s
  ∧ kept_scales wmsc_layers_scales ((pre ++ String ":" s)%string :: entries)
    = kept_scales wmsc_layers_scales (s :: entries).
Proof.
  intros Hs.
  assert (last_field s = s) as Hplain.
  { unfold last_field. by rewrite (split_colon_no_colon s Hs). }
  assert (last_field (pre ++ String ":" s)%string = s) as Hcolon.
  { unfold last_field. by apply split_colon_last. }
  split_and!; [done|done|].
  unfold kept_scales. cbn [mapM]. by rewrite Hplain, Hcolon.
Qed.

Lemma kept_scales_after_last_colon_witness :
  @kept_scales sample_imports [] ["1:5000"] = @kept_scales sample_imports [] ["5000"].
Proof.
  exact (proj2 (proj2 (@kept_scales_after_last_colon sample_imports []
                         "1" "5000" [] eq_refl))).
Defined.

(** ** Links that hold in every store *)

Lemma well_linked_alloc (σ : store) (s : string) (l : option Layer) :
  well_linked σ → well_linked (σ ++ [fresh_obj s l]).
Proof.
  intros Hwl n o Hn. rewrite length_app. simpl.
  apply lookup_app_Some in Hn as [Hn|[_ Hn]].
  - destruct (Hwl n o Hn) as [Hc Hp]. split.
    + intros c Hin. pose proof (Hc c Hin). lia.
    + intros q Hq. destruct (Hp q Hq) as (oq & Hoq & Hin).
      exists oq. split; [by apply lookup_app_l_Some|done].
  - apply list_lookup_singleton_Some in Hn as [_ <-]. split; [|done].
    by intros c ?%elem_of_nil.
Qed.

Lemma well_linked_attach (σ : store) (self node : ref) :
  well_linked σ → self < length σ → node < length σ →
  well_linked (attach σ self node).
Proof.
  intros Hwl Hself Hnode n o'. rewrite attach_lookup, attach_length.
  destruct (σ !! n) as [o|] eqn:Hn; [|done]. intros [= <-].
  destruct (Hwl n o Hn) as [Hc Hp]. split.
  - simpl. intros c Hin. case_decide; [|by apply Hc].
    apply elem_of_app in Hin as [Hin|Hin]; [by apply Hc|].
    by apply list_elem_of_singleton in Hin as ->.
  - simpl. intros q Hq. rewrite attach_lookup.
    destruct (decide (n = node)) as [->|Hne].
    + injection Hq as <-.
      destruct (lookup_lt_is_Some_2 σ self Hself) as [os ->]. simpl.
      eexists. split; [done|]. simpl. rewrite decide_True by done.
      apply elem_of_app. right. left.
    + destruct (Hp q Hq) as (oq & -> & Hin). simpl.
      eexists. split; [done|]. simpl. case_decide; [|done].
      apply elem_of_app. by left.
Qed.

Lemma well_linked_append (nodes : list Arg) : ∀ (σ : store) (self : ref),
  well_linked σ → self < length σ → Forall (live σ) nodes →
  well_linked (append σ self nodes).
Proof.
  induction nodes as [|a rest IH]; intros σ self Hwl Hself Hlive; [done|].
  apply list.Forall_cons in Hlive as [Ha Hlive].
  destruct a as [|s|node]; simpl.
  - by apply IH.
  - apply IH.
    + apply well_linked_attach; [by apply well_linked_alloc|..];
        rewrite length_app; simpl; lia.
    + rewrite attach_length, length_app. simpl. lia.
    + eapply list.Forall_impl; [exact Hlive|]. intros a. apply live_mono.
      rewrite attach_length, length_app. simpl. lia.
  - simpl in Ha. apply IH.
    + by apply well_linked_attach.
    + by rewrite attach_length.
    + eapply list.Forall_impl; [exact Hlive|]. intros a. apply live_mono.
      by rewrite attach_length.
Qed.

(** X19: in every store reached by calls of [Node.__init__] and
    [Node.append], with nodes handed over in any way, every child listed
    is an object of the store, and every node that has a parent is among
    the children of that parent. *)
Theorem constructed_well_linked (σ : store) :
  constructed σ → well_linked σ.
Proof.
  induction 1 as [|σ name children layer _ IH Hlive
                  |σ self nodes _ IH Hself Hlive].
  - intros n o Hn. by rewrite lookup_nil in Hn.
  - rewrite Node_init_store. apply well_linked_append.
    + by apply well_linked_alloc.
    + rewrite length_app. simpl. lia.
    + eapply list.Forall_impl; [exact Hlive|]. intros a. apply live_mono.
      rewrite length_app. simpl. lia.
  - by apply well_linked_append.
Qed.

Lemma constructed_well_linked_witness : well_linked two_parents_store.
Proof.
  apply constructed_well_linked. unfold two_parents_store.
  apply constructed_init; [apply constructed_init;
    [apply constructed_init; [constructor|constructor]|]|];
    repeat constructor.
Defined.

(** ** The order of the stored scales *)

Section SameUnitsAndLayers.
Context `{Imports}.
Variables self self' : Plugin.
Hypothesis Hunits : canvas_map_units self = canvas_map_units self'.
Hypothesis Hlayers : project_map_layers self = project_map_layers self'.

Lemma map_units_same : map_units self = map_units self'.
Proof using Hunits. unfold map_units. by rewrite Hunits. Qed.

Lemma scales_to_resolutions_same scales :
  scales_to_resolutions self scales = scales_to_resolutions self' scales.
Proof using Hunits. unfold scales_to_resolutions. by rewrite map_units_same. Qed.

Lemma resolutions_to_scales_same rs :
  resolutions_to_scales self rs = resolutions_to_scales self' rs.
Proof using Hunits. unfold resolutions_to_scales. by rewrite map_units_same. Qed.

Lemma filter_visible_resolutions_same rs layer :
  filter_visible_resolutions self rs layer
  = filter_visible_resolutions self' rs layer.
Proof using Hunits.
  unfold filter_visible_resolutions. by rewrite scales_to_resolutions_same.
Qed.

Lemma wmsc_layer_resolutions_same layer :
  wmsc_layer_resolutions self layer = wmsc_layer_resolutions self' layer.
Proof using Hunits.
  unfold wmsc_layer_resolutions.
  destruct (provider_resolutions layer) as [[|v vs]|]; [done| |done].
  destruct (to_decimal_array (v :: vs)); [|done]. simpl.
  by rewrite filter_visible_resolutions_same.
Qed.

Lemma collect_wmsc_resolutions_same layers acc :
  collect_wmsc_resolutions self layers acc
  = collect_wmsc_resolutions self' layers acc.
Proof using Hunits.
  revert acc. induction layers as [|l ls IH]; intros acc; [done|].
  simpl. rewrite wmsc_layer_resolutions_same.
  destruct (wmsc_layer_resolutions self' l) as [[[|x xs]|]|]; simpl;
    by rewrite ?IH.
Qed.

Lemma wmsc_resolutions_same : wmsc_resolutions self = wmsc_resolutions self'.
Proof using Hunits Hlayers.
  unfold wmsc_resolutions, base_layers. rewrite Hlayers.
  apply collect_wmsc_resolutions_same.
Qed.
End SameUnitsAndLayers.

Lemma mapM_Permutation {A B} (f : A → option B) (l l' : list A) :
  l ≡ₚ l' → option_Forall2 (≡ₚ) (mapM f l) (mapM f l').
Proof.
  induction 1 as [|x l l' _ IH|x y l|l1 l2 l3 _ IH1 _ IH2].
  - by constructor.
  - cbn [mapM]. destruct (f x); simpl; [|constructor].
    destruct IH as [k k' Hk|]; simpl; constructor. by constructor.
  - cbn [mapM]. destruct (f x), (f y); simpl; try constructor;
      destruct (mapM f l); simpl; constructor. apply perm_swap.
  - destruct IH1 as [k1 k2 H12|]; inversion IH2; subst; constructor.
    by etrans.
Qed.

Lemma flip_Zle_total : Total (flip Z.le).
Proof. intros x y. unfold flip. lia. Qed.

Lemma flip_Zle_antisym : AntiSymm (=) (flip Z.le).
Proof. intros x y. unfold flip. lia. Qed.

Lemma sorted_reverse_Z_Permutation (l l' : list Z) :
  l ≡ₚ l' → sorted_reverse Z.le l = sorted_reverse Z.le l'.
Proof.
  intros Hperm. unfold sorted_reverse.
  apply (StronglySorted_unique (flip Z.le) (AntiSymm0 := flip_Zle_antisym)).
  - apply (StronglySorted_merge_sort _ (Total0 := flip_Zle_total)).
  - apply (StronglySorted_merge_sort _ (Total0 := flip_Zle_total)).
  - by rewrite !merge_sort_Permutation.
Qed.

(** X20: the tile resolutions of a project do not depend on the order in
    which the scales are stored: the kept scales are sorted before they
    are converted. *)
Theorem project_layers_resolutions_scales_order `{Imports} (self : Plugin)
    (entries entries' : list string) :
  entries ≡ₚ entries' →
  project_layers_resolutions (with_scales self entries)
  = project_layers_resolutions (with_scales self entries').
Proof.
  intros Hperm. unfold project_layers_resolutions.
  rewrite (wmsc_resolutions_same (with_scales self entries)
             (with_scales self entries') eq_refl eq_refl).
  destruct (wmsc_resolutions (with_scales self entries')) as [wmsc|];
    [|done].
  simpl.
  rewrite (resolutions_to_scales_same (with_scales self entries)
             (with_scales self entries') eq_refl).
  destruct (resolutions_to_scales (with_scales self entries') _) as [wls|];
    [|done].
  simpl.
  destruct entries as [|e es].
  { apply Permutation_nil_l in Hperm. by subst. }
  destruct entries' as [|e' es']; [by apply Permutation_nil_r in Hperm|].
  remember (e :: es) as en eqn:Hen. remember (e' :: es') as en' eqn:Hen'.
  assert (en ≠ []) as Hne by by subst.
  assert (en' ≠ []) as Hne' by by subst.
  clear Hen Hen'.
  rewrite !bool_decide_eq_false_2 by done. simpl. unfold kept_scales.
  destruct (mapM_Permutation (λ scale, py_int (last_field scale))
              en en' Hperm) as [scales scales' Hscales|];
    [|done].
  simpl.
  rewrite (scales_to_resolutions_same (with_scales self en)
             (with_scales self en') eq_refl).
  rewrite (sorted_reverse_Z_Permutation
             (filter (λ scale, scale ∉ wls) scales)
             (filter (λ scale, scale ∉ wls) scales'));
    [done|]. by rewrite Hscales.
Qed.

Lemma project_layers_resolutions_scales_order_witness :
  @project_layers_resolutions sample_imports
    (with_scales sample_plugin ["1:10000"; "1:5000"])
  = @project_layers_resolutions sample_imports
      (with_scales sample_plugin ["1:5000"; "1:10000"]).
Proof.
  apply (@project_layers_resolutions_scales_order sample_imports).
  apply perm_swap.
Defined.
